(** * terraform-provider-webitel: the [unique_contact] provider function

    A shallow embedding of [internal/provider/unique_contact_function.go].
    The function takes the rows of a decoded CSV table, groups them by one
    field and builds, for every group, a record of deduplicated labels,
    merged variables and deduplicated destinations.

    Layout of the development:
    - [Go]: outcomes of a Go computation (return, panic, deadlock), the
      zero-value map read, [sync.Mutex] cells;
    - [attr], [types]: the part of terraform-plugin-framework's value
      model the function builds its result with (types, values and the
      checking constructors behind the [*Must] wrappers);
    - the function itself: [UniqueSliceElements], the schemas, [Run] and
      the two loops of [Run];
    - the vocabulary of the statements and the example inputs;
    - lemmas on the loops, the claims C1-C10, and further properties of
      the code (X1-X22). *)

From Stdlib Require Import Ascii.
From stdpp Require Import base option list gmap strings fin_maps.

#[local] Set Warnings "-register-all,-clear-no-such-hyp".

(** ** Go run-time behaviour used by the function *)

Module Go.

(** How a Go call ends: it returns, it panics, or it blocks for ever on a
    mutex that nobody will release. *)
Inductive Fault :=
| NilDereference
| UnlockOfUnlockedMutex
| Deadlock
| MustPanic (summary : string).

Inductive Outcome (A : Type) :=
| Returned (a : A)
| Faulted (f : Fault).
Arguments Returned {A} a.
Arguments Faulted {A} f.

#[global] Instance Outcome_ret : MRet Outcome := @Returned.
#[global] Instance Outcome_bind : MBind Outcome := λ A B k o,
  match o with
  | Returned a => k a
  | Faulted f => Faulted f
  end.

#[global] Instance Outcome_fmap : FMap Outcome := λ A B g o,
  match o with
  | Returned a => Returned (g a)
  | Faulted f => Faulted f
  end.

(** [for _, x := range xs { acc = body(acc, x) }] where the body may
    fault: the loop stops at the first fault. *)
Fixpoint rangeM {A B} (body : B → A → Outcome B) (acc : B) (xs : list A)
  : Outcome B :=
  match xs with
  | [] => Returned acc
  | x :: xs' => acc' ← body acc x; rangeM body acc' xs'
  end.

(** [m[k]] on a [map[string]string]: a missing key reads as the zero
    value of the element type, the empty string. *)
Definition index (m : gmap string string) (k : string) : string :=
  default "" (m !! k).

(** [m[k]] on a [map[K]bool]: a missing key reads as [false]. *)
Definition flag `{Countable K} (m : gmap K bool) (k : K) : bool :=
  default false (m !! k).

(** [*sync.Mutex]: a pointer into a store of mutex cells; [true] is
    locked.  [None] is the nil pointer. *)
Abbreviation MutexRef := (option nat).
Abbreviation MutexStore := (list bool).

(** [&sync.Mutex{}] *)
Definition newMutex (h : MutexStore) : MutexRef * MutexStore :=
  (Some (length h), h ++ [false]).

(** [mu.Lock()]: with a single goroutine, locking a locked mutex never
    returns. *)
Definition Lock (mu : MutexRef) (h : MutexStore) : Outcome MutexStore :=
  match mu with
  | None => Faulted NilDereference
  | Some l =>
      match h !! l with
      | Some false => Returned (<[l:=true]> h)
      | Some true => Faulted Deadlock
      | None => Faulted NilDereference
      end
  end.

(** [mu.Unlock()] *)
Definition Unlock (mu : MutexRef) (h : MutexStore) : Outcome MutexStore :=
  match mu with
  | None => Faulted NilDereference
  | Some l =>
      match h !! l with
      | Some true => Returned (<[l:=false]> h)
      | Some false => Faulted UnlockOfUnlockedMutex
      | None => Faulted NilDereference
      end
  end.

End Go.
Export Go.

(** ** The framework's value model ([attr], [types], [basetypes])

    Only known values occur in [Run]; the null and unknown states of the
    framework's values are left out. *)

Module attr.

(** [attr.Type] *)
Inductive Type_ :=
| StringType
| ListType (ElemType : Type_)
| MapType (ElemType : Type_)
| SetType (ElemType : Type_)
| ObjectType (AttrTypes : gmap string Type_).

(** [basetypes.StringValue], a comparable Go struct. *)
Record StringValue := mkStringValue { ValueString : string }.

#[global] Instance StringValue_eq_dec : EqDecision StringValue.
Proof. solve_decision. Defined.
#[global] Instance StringValue_countable : Countable StringValue :=
  inj_countable' ValueString mkStringValue (λ x, match x with mkStringValue _ => eq_refl end).

(** [attr.Value] *)
Inductive Value :=
| String (v : StringValue)
| ListValue (elementType : Type_) (elements : list Value)
| MapValue (elementType : Type_) (elements : gmap string Value)
| SetValue (elementType : Type_) (elements : list Value)
| ObjectValue (attributeTypes : gmap string Type_)
              (attributes : gmap string Value).

(** [t.Equal(candidate)].  On object types: the same number of
    attributes, and every attribute of [t] is in [candidate] with an
    equal type. *)
Fixpoint Equal (t candidate : Type_) {struct t} : bool :=
  match t, candidate with
  | StringType, StringType => true
  | ListType a, ListType b => Equal a b
  | MapType a, MapType b => Equal a b
  | SetType a, SetType b => Equal a b
  | ObjectType a, ObjectType b =>
      bool_decide (size b = size a) &&
      map_fold (λ k v ok,
                  match b !! k with
                  | Some other => Equal v other && ok
                  | None => false
                  end) true a
  | _, _ => false
  end.

(** [v.Type(ctx)] *)
Definition TypeOf (v : Value) : Type_ :=
  match v with
  | String _ => StringType
  | ListValue t _ => ListType t
  | MapValue t _ => MapType t
  | SetValue t _ => SetType t
  | ObjectValue ts _ => ObjectType ts
  end.

End attr.

Module types.
Import attr.

(** [types.StringValue(s)] *)
Definition StringValue (s : string) : attr.StringValue := mkStringValue s.

Definition elementsOk (elementType : Type_) (elements : list Value) : bool :=
  forallb (λ e, Equal elementType (TypeOf e)) elements.

(** [types.ListValueMust]: [NewListValue] reports a diagnostic for an
    element whose type is not the element type, and the wrapper panics
    on any diagnostic. *)
Definition ListValueMust (elementType : Type_) (elements : list Value)
  : Outcome Value :=
  if elementsOk elementType elements
  then Returned (ListValue elementType elements)
  else Faulted (MustPanic "ListValueMust received error(s)").

(** [types.SetValueMust] *)
Definition SetValueMust (elementType : Type_) (elements : list Value)
  : Outcome Value :=
  if elementsOk elementType elements
  then Returned (SetValue elementType elements)
  else Faulted (MustPanic "SetValueMust received error(s)").

(** [types.MapValueMust] *)
Definition MapValueMust (elementType : Type_) (elements : gmap string Value)
  : Outcome Value :=
  if bool_decide (map_Forall (λ _ e, Equal elementType (TypeOf e) = true) elements)
  then Returned (MapValue elementType elements)
  else Faulted (MustPanic "MapValueMust received error(s)").

(** [types.ObjectValueMust]: every declared attribute has a value of its
    type, and no value is given for an undeclared attribute. *)
Definition ObjectValueMust (attributeTypes : gmap string Type_)
           (attributes : gmap string Value) : Outcome Value :=
  if bool_decide
       (map_Forall (λ name attributeType,
                      match attributes !! name with
                      | Some attribute =>
                          Equal attributeType (TypeOf attribute)
                      | None => false
                      end = true) attributeTypes)
     && bool_decide
          (map_Forall (λ name _, is_Some (attributeTypes !! name)) attributes)
  then Returned (ObjectValue attributeTypes attributes)
  else Faulted (MustPanic "ObjectValueMust received error(s)").

End types.

(** ** The helper [stripSpaces]

    [Run] passes every group-by value through [stripSpaces], a helper of the
    provider package that lives in another file.  The development takes it
    as a parameter, so every theorem holds whatever the helper computes; the
    function below is what the examples instantiate it with. *)

Module Trim.

Definition isSpace (a : ascii) : bool :=
  bool_decide (a ∈ [" "; "009"; "010"; "011"; "012"; "013"]%char).

Fixpoint trimLeft (s : string) : string :=
  match s with
  | String.String a s' => if isSpace a then trimLeft s' else s
  | EmptyString => EmptyString
  end.

(** Modelled from the spec: [stripSpaces] is not part of the sources at
    hand; the specification describes it as trimming the whitespace that
    surrounds the value. *)
Definition TrimSpace (s : string) : string :=
  String.rev (trimLeft (String.rev (trimLeft s))).

End Trim.

(** ** The provider function *)

(** [UniqueContactModel], after the framework has decoded the arguments:
    [CSV] as [[]map[string]string] ([ElementsAs]), the three selectors by
    [ValueString], the two field lists as [[]string] ([listToLabels]). *)
Record UniqueContactModel := {
  CSV : list (gmap string string);
  GroupByField : string;
  CodeField : string;
  DestinationField : string;
  Labels : list string;
  Variables : list string;
}.

(** The two types declared inside [Run]. *)
Module destination.
Record t := mk { code : string; destination : string }.
End destination.

Module contact.
Record t := mk {
  mu : MutexRef;
  destinations : list destination.t;
  labels : list string;
  variables : gmap string string;
}.

(** The zero value, which [seen[name]] reads for a missing key. *)
Definition zero : t := mk None [] [] ∅.
End contact.

(** [tflog.Warn] calls of [Run], with their fields. *)
Inductive LogEntry :=
| ElementHasEmptyName (i : nat) (name : string)
| VariableAlreadyExists (key : string).

(** What the first loop of [Run] reads and writes: the map [seen], the
    mutex cells its contacts point to, and the log. *)
Record World := mkWorld {
  seen : gmap string contact.t;
  mutexes : MutexStore;
  tflog : list LogEntry;
}.

(** [function.RunResponse] *)
Record RunResponse := mkResponse {
  Error : option string;
  Result : option attr.Value;
}.

(** The order in which a [range] over a Go map visits the entries: any
    enumeration of the entries. *)
Definition RangeOrder := ∀ A : Type, gmap string A → list (string * A).

Definition ValidOrder (order : RangeOrder) : Prop :=
  ∀ A (m : gmap string A), order A m ≡ₚ map_to_list m.

Definition canonicalOrder : RangeOrder := λ A m, map_to_list m.

(** [UniqueSliceElements] *)
Definition UniqueSliceElements `{Countable T} (inputSlice : list T) : list T :=
  fst (foldl (λ '(uniqueSlice, seen) element,
                if negb (flag seen element)
                then (uniqueSlice ++ [element], <[element:=true]> seen)
                else (uniqueSlice, seen))
             ([], (∅ : gmap T bool)) inputSlice).

Import attr.

Definition AttrTypes (t : Type_) : gmap string Type_ :=
  match t with
  | ObjectType a => a
  | _ => ∅
  end.

Definition destinationSchema : Type_ :=
  ObjectType {[ "code" := StringType; "destination" := StringType ]}.

Definition returnSchema : Type_ :=
  ObjectType {[ "labels" := ListType StringType;
                "variables" := MapType StringType;
                "destinations" := SetType destinationSchema ]}.

(** The declared return of [Definition]: [MapReturn{ElementType: returnSchema()}]. *)
Definition Return : Type_ := MapType returnSchema.

(** [resp.Result.Set(ctx, value)]: the value must have the declared return
    type; otherwise the response keeps its result and an error comes back. *)
Definition ResultSet (resp : RunResponse) (value : Value)
  : RunResponse * option string :=
  if Equal Return (TypeOf value)
  then (mkResponse (Error resp) (Some value), None)
  else (resp, Some "Error setting function result").

(** [function.ConcatFuncErrors] on at most two errors. *)
Definition ConcatFuncErrors (e1 e2 : option string) : option string :=
  match e1, e2 with
  | None, e => e
  | e, None => e
  | Some a, Some b => Some (a +:+ "\n" +:+ b)
  end.

Section Run.

Variable stripSpaces : string → string.
Variable order : RangeOrder.

(** Lines 166-169: the labels of one element. *)
Definition elementLabels (labelFields : list string) (v : gmap string string)
  : list string :=
  foldl (λ labels field, labels ++ [index v field]) [] labelFields.

(** Lines 183-189: the variables of one element are written into the
    contact's map, with a warning for every key that is already there. *)
Definition setVariables (variableFields : list string)
           (v : gmap string string)
           (c : contact.t) (log : list LogEntry) : contact.t * list LogEntry :=
  foldl (λ '(c, log) field,
           let log :=
             match contact.variables c !! field with
             | Some _ => log ++ [VariableAlreadyExists field]
             | None => log
             end in
           (contact.mk (contact.mu c) (contact.destinations c)
                       (contact.labels c)
                       (<[field := index v field]> (contact.variables c)),
            log))
        (c, log) variableFields.

(** [seen[name]] *)
Definition seenAt (w : World) (name : string) : contact.t :=
  default contact.zero (seen w !! name).

(** Lines 148-192: the body of the first loop. *)
Definition groupElement (data : UniqueContactModel)
           (labelFields variableFields : list string)
           (w : World) (i : nat) (v : gmap string string) : Outcome World :=
  let name := stripSpaces (index v (GroupByField data)) in
  if decide (name = "") then
    Returned (mkWorld (seen w) (mutexes w)
                      (tflog w ++ [ElementHasEmptyName i name]))
  else
    let w :=
      match seen w !! name with
      | Some _ => w
      | None =>
          let '(mu, h) := newMutex (mutexes w) in
          mkWorld (<[name := contact.mk mu [] [] ∅]> (seen w)) h (tflog w)
      end in
    h ← Lock (contact.mu (seenAt w name)) (mutexes w);
    let w := mkWorld (seen w) h (tflog w) in
    let labels := elementLabels labelFields v in
    let d := destination.mk (index v (CodeField data))
                            (index v (DestinationField data)) in
    let c := contact.mk (contact.mu (seenAt w name))
                        (contact.destinations (seenAt w name) ++ [d])
                        (contact.labels (seenAt w name) ++ labels)
                        (contact.variables (seenAt w name)) in
    let '(c, log) := setVariables variableFields v c (tflog w) in
    let w := mkWorld (<[name := c]> (seen w)) (mutexes w) log in
    h ← Unlock (contact.mu (seenAt w name)) (mutexes w);
    Returned (mkWorld (seen w) h (tflog w)).

(** [for i, v := range elements] *)
Fixpoint rangeElements (body : World → nat → gmap string string → Outcome World)
         (w : World) (i : nat) (elements : list (gmap string string))
  : Outcome World :=
  match elements with
  | [] => Returned w
  | v :: rest => w' ← body w i v; rangeElements body w' (S i) rest
  end.

(** Lines 146-193: the first loop. *)
Definition Group (data : UniqueContactModel)
           (labelFields variableFields : list string) : Outcome World :=
  rangeElements (groupElement data labelFields variableFields)
                (mkWorld ∅ [] []) 0 (CSV data).

(** Lines 197-205 *)
Definition finalLabels (c : contact.t) : list attr.StringValue :=
  fst (foldl (λ '(labels, seenLabels) label,
                ((if negb (flag seenLabels label)
                  then labels ++ [types.StringValue label]
                  else labels),
                 <[label := true]> seenLabels))
             ([], (∅ : gmap string bool)) (contact.labels c)).

(** Lines 207-210 *)
Definition finalVariables (c : contact.t) : gmap string Value :=
  foldl (λ variables '(k, variable),
           <[k := String (types.StringValue variable)]> variables)
        ∅ (order _ (contact.variables c)).

(** Lines 212-227 *)
Definition finalDestinations (c : contact.t) : Outcome (list Value) :=
  fst <$>
  rangeM (λ '(destinations, seenDestination) dest,
            destinations ←
              (if negb (flag seenDestination (destination.destination dest))
               then
                 obj ← types.ObjectValueMust (AttrTypes destinationSchema)
                       {[ "code" := String (types.StringValue (destination.code dest));
                          "destination" :=
                            String (types.StringValue (destination.destination dest)) ]};
                 Returned (destinations ++ [obj])
               else Returned destinations);
            Returned (destinations,
                      <[destination.destination dest := true]> seenDestination))
         ([], (∅ : gmap string bool)) (contact.destinations c).

(** Lines 197-233: the body of the second loop, up to the store into
    [contacts]. *)
Definition finalizeContact (schema : Type_) (c : contact.t) : Outcome Value :=
  let labels := finalLabels c in
  let variables := finalVariables c in
  destinations ← finalDestinations c;
  ds ← types.SetValueMust destinationSchema destinations;
  ls ← types.ListValueMust StringType (String <$> UniqueSliceElements labels);
  vs ← types.MapValueMust StringType variables;
  types.ObjectValueMust (AttrTypes schema)
    {[ "destinations" := ds; "labels" := ls; "variables" := vs ]}.

(** Lines 195-234: the second loop. *)
Definition Finalize (schema : Type_) (seen : gmap string contact.t)
  : Outcome (gmap string Value) :=
  rangeM (λ contacts '(n, c),
            o ← finalizeContact schema c;
            Returned (<[n := o]> contacts))
         ∅ (order _ seen).

(** [Run], from the decoded arguments on.  The pair is what the caller
    sees: how the call ended, and the warnings logged on the way. *)
Definition Run (data : UniqueContactModel) (resp : RunResponse)
  : Outcome RunResponse * list LogEntry :=
  let schema := returnSchema in
  let labelFields := Labels data in
  let variableFields := Variables data in
  match Group data labelFields variableFields with
  | Faulted f => (Faulted f, [])
  | Returned w =>
      (contacts ← Finalize schema (seen w);
       result ← types.MapValueMust returnSchema contacts;
       let '(resp', err) := ResultSet resp result in
       Returned (mkResponse (ConcatFuncErrors (Error resp) err) (Result resp')),
       tflog w)
  end.

End Run.

(** ** Reading the result back

    The result of [Run] is a framework value.  The functions below read the
    map of contacts out of a response and turn one contact object back into
    plain data, so that the theorems can speak about labels, variables and
    destinations. *)

Module Summary.
Record t := mk {
  labels : list string;
  variables : gmap string string;
  destinations : list destination.t;
}.
End Summary.

Definition stringOf (v : Value) : option string :=
  match v with
  | String s => Some (ValueString s)
  | _ => None
  end.

Definition destinationOf (v : Value) : option destination.t :=
  match v with
  | ObjectValue _ attributes =>
      code ← attributes !! "code" ≫= stringOf;
      dest ← attributes !! "destination" ≫= stringOf;
      Some (destination.mk code dest)
  | _ => None
  end.

Definition stringMapOf (m : gmap string Value) : option (gmap string string) :=
  if bool_decide (map_Forall (λ _ v, is_Some (stringOf v)) m)
  then Some (omap stringOf m)
  else None.

Definition summaryOf (v : Value) : option Summary.t :=
  match v with
  | ObjectValue _ attributes =>
      ls ← attributes !! "labels";
      vs ← attributes !! "variables";
      ds ← attributes !! "destinations";
      match ls, vs, ds with
      | ListValue _ ls, MapValue _ vs, SetValue _ ds =>
          ls ← mapM stringOf ls;
          vs ← stringMapOf vs;
          ds ← mapM destinationOf ds;
          Some (Summary.mk ls vs ds)
      | _, _, _ => None
      end
  | _ => None
  end.

(** The map of contacts of a call that returned without an error. *)
Definition Contacts (out : Outcome RunResponse * list LogEntry)
  : option (gmap string Value) :=
  match out.1 with
  | Returned resp =>
      match Error resp, Result resp with
      | None, Some (MapValue _ m) => Some m
      | _, _ => None
      end
  | Faulted _ => None
  end.

(** The response [Run] starts from: no error, no result yet. *)
Definition emptyResponse : RunResponse := mkResponse None None.

Definition RunContacts (stripSpaces : string → string) (order : RangeOrder)
           (data : UniqueContactModel) : option (gmap string Value) :=
  Contacts (Run stripSpaces order data emptyResponse).

Definition RunSummary (stripSpaces : string → string) (order : RangeOrder)
           (data : UniqueContactModel) (name : string) : option Summary.t :=
  m ← RunContacts stripSpaces order data; v ← m !! name; summaryOf v.

(** ** The specification's vocabulary *)

(** Walk [l] in order and keep an element when its key is not among the
    keys seen so far. *)
Fixpoint keepUnseen {A} `{EqDecision K} (key : A → K) (seenKeys : list K)
         (l : list A) : list A :=
  match l with
  | [] => []
  | x :: l' =>
      if decide (key x ∈ seenKeys)
      then keepUnseen key seenKeys l'
      else x :: keepUnseen key (key x :: seenKeys) l'
  end.

(** The stable unique-filter of the specification: the first element of
    every key, in first-seen order. *)
Definition firstByKey {A} `{EqDecision K} (key : A → K) (l : list A) : list A :=
  keepUnseen key [] l.

Definition stableUnique `{EqDecision A} (l : list A) : list A :=
  firstByKey id l.

(** The group key of a record, and the records of a group in input order. *)
Definition groupKey (stripSpaces : string → string) (data : UniqueContactModel)
           (v : gmap string string) : string :=
  stripSpaces (index v (GroupByField data)).

Definition groupRows (stripSpaces : string → string) (data : UniqueContactModel)
           (name : string) : list (gmap string string) :=
  filter (λ v, groupKey stripSpaces data v = name) (CSV data).

(** The label tuple and the destination pair of one record. *)
Definition labelTuple (data : UniqueContactModel) (v : gmap string string)
  : list string :=
  index v <$> Labels data.

Definition destinationPair (data : UniqueContactModel) (v : gmap string string)
  : destination.t :=
  destination.mk (index v (CodeField data)) (index v (DestinationField data)).

(** A [map[K]bool] marks exactly the keys of a list. *)
Definition Marks `{Countable K} (s : gmap K bool) (keys : list K) : Prop :=
  ∀ k, flag s k = true ↔ k ∈ keys.

(** The object built at lines 218-221. *)
Definition destinationValue (d : destination.t) : Value :=
  ObjectValue (AttrTypes destinationSchema)
    {[ "code" := String (types.StringValue (destination.code d));
       "destination" := String (types.StringValue (destination.destination d)) ]}.

(** The object built at lines 229-233, from a contact's accumulated data. *)
Definition contactValue (c : contact.t) : Value :=
  ObjectValue (AttrTypes returnSchema)
    {[ "destinations" :=
         SetValue destinationSchema
           (destinationValue <$>
              firstByKey destination.destination (contact.destinations c));
       "labels" :=
         ListValue StringType
           (String <$> (types.StringValue <$> stableUnique (contact.labels c)));
       "variables" :=
         MapValue StringType
           ((λ s, String (types.StringValue s)) <$> contact.variables c) ]}.

(** The plain data of the object [contactValue] builds. *)
Definition contactSummary (c : contact.t) : Summary.t :=
  Summary.mk (stableUnique (contact.labels c))
             (contact.variables c)
             (firstByKey destination.destination (contact.destinations c)).

(** The variables one record writes, and the variables a sequence of
    records leaves behind: every record overwrites every variable field. *)
Definition writeVariables (data : UniqueContactModel)
           (vars : gmap string string) (v : gmap string string)
  : gmap string string :=
  foldl (λ vars field, <[field := index v field]> vars) vars (Variables data).

Definition mergedVariables (data : UniqueContactModel)
           (rows : list (gmap string string)) : gmap string string :=
  foldl (writeVariables data) ∅ rows.

(** A contact holds what a sequence of records contributes. *)
Definition Tracks (data : UniqueContactModel)
           (rows : list (gmap string string)) (c : contact.t) : Prop :=
  contact.destinations c = destinationPair data <$> rows ∧
  contact.labels c = rows ≫= labelTuple data ∧
  contact.variables c = mergedVariables data rows.

(** The records of a group among the records processed so far. *)
Definition rowsIn (stripSpaces : string → string) (data : UniqueContactModel)
           (pre : list (gmap string string)) (name : string)
  : list (gmap string string) :=
  filter (λ v, groupKey stripSpaces data v = name) pre.

(** The state of the first loop after the records [pre]: a contact for
    every non-empty key met so far, holding what the records of that key
    contribute, behind an unlocked mutex. *)
Definition GroupInv (stripSpaces : string → string) (data : UniqueContactModel)
           (pre : list (gmap string string)) (w : World) : Prop :=
  ∀ name,
    match seen w !! name with
    | Some c =>
        name ≠ "" ∧ rowsIn stripSpaces data pre name ≠ [] ∧
        Tracks data (rowsIn stripSpaces data pre name) c ∧
        ∃ l, contact.mu c = Some l ∧ mutexes w !! l = Some false
    | None => name = "" ∨ rowsIn stripSpaces data pre name = []
    end.

(** The same call on other rows. *)
Definition withCSV (data : UniqueContactModel)
           (elements : list (gmap string string)) : UniqueContactModel :=
  {| CSV := elements;
     GroupByField := GroupByField data;
     CodeField := CodeField data;
     DestinationField := DestinationField data;
     Labels := Labels data;
     Variables := Variables data |}.

(** The value of one group, from the rows of the group alone. *)
Definition rowsValue (data : UniqueContactModel)
           (rows : list (gmap string string)) : Value :=
  contactValue (contact.mk None (destinationPair data <$> rows)
                           (rows ≫= labelTuple data)
                           (mergedVariables data rows)).

Definition rowsSummary (data : UniqueContactModel)
           (rows : list (gmap string string)) : Summary.t :=
  Summary.mk (stableUnique (rows ≫= labelTuple data))
             (mergedVariables data rows)
             (firstByKey destination.destination (destinationPair data <$> rows)).

(** Two records that read the same at every field name. *)
Definition sameReads (v v' : gmap string string) : Prop :=
  ∀ f, index v f = index v' f.

(** Another iteration order of Go maps: the canonical one backwards. *)
Definition reverseOrder : RangeOrder := λ A m, reverse (map_to_list m).

(** ** The first loop as a fold

    One iteration of the first loop as a plain function of the state, for
    the states the loop reaches (every contact behind an unlocked mutex). *)

(** What one record adds to a contact (lines 166-189). *)
Definition addRecord (data : UniqueContactModel) (c : contact.t)
           (v : gmap string string) : contact.t :=
  contact.mk (contact.mu c)
             (contact.destinations c ++ [destinationPair data v])
             (contact.labels c ++ labelTuple data v)
             (writeVariables data (contact.variables c) v).

(** The warnings of lines 183-189: walking the variable fields, one warning
    for every field that is a key of the map at that moment. *)
Fixpoint overwriteWarnings (keys : gset string) (fields : list string)
  : list LogEntry :=
  match fields with
  | [] => []
  | f :: fields' =>
      (if decide (f ∈ keys) then [VariableAlreadyExists f] else [])
        ++ overwriteWarnings ({[f]} ∪ keys) fields'
  end.

Definition stepWorld (stripSpaces : string → string) (data : UniqueContactModel)
           (w : World) (i : nat) (v : gmap string string) : World :=
  let name := groupKey stripSpaces data v in
  if decide (name = "") then
    mkWorld (seen w) (mutexes w) (tflog w ++ [ElementHasEmptyName i name])
  else
    match seen w !! name with
    | Some c =>
        mkWorld (<[name := addRecord data c v]> (seen w))
                (mutexes w)
                (tflog w ++ overwriteWarnings (dom (contact.variables c))
                                              (Variables data))
    | None =>
        mkWorld (<[name := addRecord data
                             (contact.mk (Some (length (mutexes w))) [] [] ∅) v]>
                   (seen w))
                (mutexes w ++ [false])
                (tflog w ++ overwriteWarnings ∅ (Variables data))
    end.

Fixpoint foldWorld (stripSpaces : string → string) (data : UniqueContactModel)
         (w : World) (i : nat) (els : list (gmap string string)) : World :=
  match els with
  | [] => w
  | v :: rest =>
      foldWorld stripSpaces data (stepWorld stripSpaces data w i v) (S i) rest
  end.

(** Every contact points to a mutex cell of its own, and every cell is
    unlocked and owned by a contact. *)
Definition MutexesFree (w : World) : Prop :=
  (∀ n c, seen w !! n = Some c →
          ∃ l, contact.mu c = Some l ∧ mutexes w !! l = Some false) ∧
  (∀ n1 n2 c1 c2, seen w !! n1 = Some c1 → seen w !! n2 = Some c2 →
                  contact.mu c1 = contact.mu c2 → n1 = n2) ∧
  Forall (λ b, b = false) (mutexes w) ∧
  length (mutexes w) = size (seen w).

(** The warnings [Run] logs for the record at position [i], given the
    records [pre] before it. *)
Definition recordWarnings (stripSpaces : string → string)
           (data : UniqueContactModel) (pre : list (gmap string string))
           (i : nat) (v : gmap string string) : list LogEntry :=
  let name := groupKey stripSpaces data v in
  if decide (name = "") then [ElementHasEmptyName i ""]
  else if decide (rowsIn stripSpaces data pre name = [])
       then overwriteWarnings ∅ (Variables data)
       else VariableAlreadyExists <$> Variables data.

Fixpoint expectedLog (stripSpaces : string → string)
         (data : UniqueContactModel) (pre : list (gmap string string))
         (i : nat) (els : list (gmap string string)) : list LogEntry :=
  match els with
  | [] => []
  | v :: rest =>
      recordWarnings stripSpaces data pre i v
        ++ expectedLog stripSpaces data (pre ++ [v]) (S i) rest
  end.

(** Positions of the records whose processed group key is empty. *)
Fixpoint blankPositions (stripSpaces : string → string)
         (data : UniqueContactModel) (i : nat)
         (els : list (gmap string string)) : list nat :=
  match els with
  | [] => []
  | v :: rest =>
      (if decide (groupKey stripSpaces data v = "") then [i] else [])
        ++ blankPositions stripSpaces data (S i) rest
  end.

Definition isEmptyNameWarning (e : LogEntry) : bool :=
  match e with
  | ElementHasEmptyName _ _ => true
  | VariableAlreadyExists _ => false
  end.

(** The selectors of a call: the field names [Run] reads records at. *)
Definition selectors (data : UniqueContactModel) : list string :=
  GroupByField data :: CodeField data :: DestinationField data
    :: Labels data ++ Variables data.

(** Two records that read the same at every selector. *)
Definition sameOnSelectors (data : UniqueContactModel)
           (v v' : gmap string string) : Prop :=
  ∀ f, f ∈ selectors data → index v f = index v' f.

(** ** The declared signature

    What [Definition] (lines 38-71) declares to the framework: the
    parameters with their types, in order, and the return type.  The
    summary and the description are left out. *)
Record FunctionSignature := {
  Parameters : list (string * Type_);
  ReturnType : Type_;
}.

Definition Definition_ : FunctionSignature :=
  {| Parameters :=
       [ ("csv", ListType (MapType StringType));
         ("group_by_field", StringType);
         ("code_field", StringType);
         ("destination_field", StringType);
         ("label_fields", ListType StringType);
         ("variable_fields", ListType StringType) ];
     ReturnType := MapType returnSchema |}.

(** The same call with other label and variable fields. *)
Definition withFields (data : UniqueContactModel)
           (labelFields variableFields : list string) : UniqueContactModel :=
  {| CSV := CSV data;
     GroupByField := GroupByField data;
     CodeField := CodeField data;
     DestinationField := DestinationField data;
     Labels := labelFields;
     Variables := variableFields |}.

(** ** Example inputs

    The rows of the provider's acceptance test
    ([TestUniqueContactFunction_Known]) with the values it expects, and rows
    that disagree on a variable, lack a variable field and carry blank or
    padded group keys. *)

Definition row (name code dest : string) : gmap string string :=
  {[ "name" := name; "code" := code; "destination" := dest ]}.

Definition knownData : UniqueContactModel :=
  {| CSV := [ row "foo1" "1" "ami-54d2a63b";
              row "foo1" "1" "ami-54d2a63c";
              row "foo1" "2" "ami-54d2a63b";
              row "bar1" "m3.large" "ami-54d2a63b" ];
     GroupByField := "name";
     CodeField := "code";
     DestinationField := "destination";
     Labels := ["code"; "destination"];
     Variables := ["name"] |}.

Definition knownFoo1 : Summary.t :=
  Summary.mk ["1"; "ami-54d2a63b"; "ami-54d2a63c"; "2"]
             {[ "name" := "foo1" ]}
             [ destination.mk "1" "ami-54d2a63b";
               destination.mk "1" "ami-54d2a63c" ].

Definition knownBar1 : Summary.t :=
  Summary.mk ["m3.large"; "ami-54d2a63b"]
             {[ "name" := "bar1" ]}
             [ destination.mk "m3.large" "ami-54d2a63b" ].

(** Accumulators as the first loop leaves them for the acceptance test. *)
Definition knownSeen : gmap string contact.t :=
  {[ "foo1" :=
       contact.mk (Some 0)
         [ destination.mk "1" "ami-54d2a63b";
           destination.mk "1" "ami-54d2a63c";
           destination.mk "2" "ami-54d2a63b" ]
         [ "1"; "ami-54d2a63b"; "1"; "ami-54d2a63c"; "2"; "ami-54d2a63b" ]
         {[ "name" := "foo1" ]};
     "bar1" :=
       contact.mk (Some 1)
         [ destination.mk "m3.large" "ami-54d2a63b" ]
         [ "m3.large"; "ami-54d2a63b" ]
         {[ "name" := "bar1" ]} ]}.

(** Rows that disagree on a variable, lack a variable field, and carry
    blank or padded group keys. *)
Definition annFirst : gmap string string :=
  {[ "name" := "ann"; "color" := "red"; "size" := "S"; "phone" := "100" ]}.
Definition bobOnly : gmap string string :=
  {[ "name" := "bob"; "color" := "green"; "phone" := "200" ]}.
Definition blankRow : gmap string string :=
  {[ "name" := "   "; "color" := "grey"; "phone" := "300" ]}.
Definition annLast : gmap string string :=
  {[ "name" := " ann "; "color" := "blue"; "phone" := "100"; "code" := "7" ]}.

Definition mergeData : UniqueContactModel :=
  {| CSV := [annFirst; bobOnly; blankRow; annLast];
     GroupByField := "name";
     CodeField := "code";
     DestinationField := "phone";
     Labels := ["color"];
     Variables := ["color"; "size"] |}.

Definition mergeAnn : Summary.t :=
  Summary.mk ["red"; "blue"]
             {[ "color" := "blue"; "size" := "" ]}
             [ destination.mk "" "100" ].

Definition mergeBob : Summary.t :=
  Summary.mk ["green"]
             {[ "color" := "green"; "size" := "" ]}
             [ destination.mk "" "200" ].


(** ** Tactics *)

(** Case analysis on a lookup in a map written as a literal. *)
Ltac map_cases H :=
  repeat (apply lookup_insert_Some in H as [[<- <-]|[? H]]);
  try (apply lookup_singleton_Some in H as [<- <-]).

(** ** Lemmas on the stable unique-filter *)

Section KeepUnseen.
Context {A K : Type} `{EqDecision K} (key : A → K).

Lemma keepUnseen_snoc seenKeys l x :
  keepUnseen key seenKeys (l ++ [x]) =
  keepUnseen key seenKeys l ++
    (if decide (key x ∈ seenKeys ++ (key <$> l)) then [] else [x]).
Proof.
  revert seenKeys. induction l as [|y l IH]; intros seenKeys; simpl.
  - rewrite app_nil_r. by destruct (decide _).
  - destruct (decide (key y ∈ seenKeys)) as [Hy|Hy].
    + rewrite IH. f_equal.
      change (list_fmap A K key l) with (key <$> l).
      clear IH. repeat case_decide; try done; exfalso; set_unfold; intuition congruence.
    + rewrite IH. simpl. f_equal. f_equal.
      change (list_fmap A K key l) with (key <$> l).
      clear IH. repeat case_decide; try done; exfalso; set_unfold; intuition congruence.
Qed.

Lemma firstByKey_snoc l x :
  firstByKey key (l ++ [x]) =
  firstByKey key l ++ (if decide (key x ∈ key <$> l) then [] else [x]).
Proof. unfold firstByKey. by rewrite keepUnseen_snoc. Qed.

Lemma keepUnseen_sublist seenKeys l : keepUnseen key seenKeys l `sublist_of` l.
Proof.
  revert seenKeys. induction l as [|x l IH]; intros seenKeys; simpl; [done|].
  destruct (decide _); [by apply sublist_cons | by apply sublist_skip].
Qed.

Lemma keepUnseen_keys seenKeys l k :
  k ∈ key <$> keepUnseen key seenKeys l ↔ k ∈ key <$> l ∧ k ∉ seenKeys.
Proof.
  revert seenKeys. induction l as [|x l IH]; intros seenKeys; simpl.
  - set_solver.
  - destruct (decide (key x ∈ seenKeys)) as [Hx|Hx].
    + rewrite IH. set_solver.
    + rewrite fmap_cons, !elem_of_cons, IH.
      destruct (decide (k = key x)); set_solver.
Qed.

Lemma keepUnseen_NoDup seenKeys l : NoDup (key <$> keepUnseen key seenKeys l).
Proof.
  revert seenKeys. induction l as [|x l IH]; intros seenKeys; simpl.
  - constructor.
  - destruct (decide (key x ∈ seenKeys)); [done|].
    rewrite fmap_cons. constructor; [|done].
    rewrite keepUnseen_keys. set_solver.
Qed.

(** Every kept element is the first one of its key. *)
Lemma keepUnseen_first seenKeys l y :
  y ∈ keepUnseen key seenKeys l →
  ∃ l1 l2, l = l1 ++ y :: l2 ∧ key y ∉ seenKeys ++ (key <$> l1).
Proof.
  revert seenKeys. induction l as [|x l IH]; intros seenKeys; simpl.
  - intros Hy. by apply elem_of_nil in Hy.
  - destruct (decide (key x ∈ seenKeys)) as [Hx|Hx].
    + intros (l1 & l2 & -> & Hn)%IH. exists (x :: l1), l2. split; [done|].
      rewrite fmap_cons. clear IH. set_unfold. intuition congruence.
    + intros [->|Hy]%elem_of_cons.
      * exists [], l. split; [done|]. simpl. by rewrite app_nil_r.
      * apply IH in Hy as (l1 & l2 & -> & Hn). exists (x :: l1), l2.
        split; [done|]. rewrite fmap_cons. clear IH. set_unfold.
        intuition congruence.
Qed.

Lemma keepUnseen_NoDup_id seenKeys l :
  NoDup (key <$> l) → (∀ x, x ∈ l → key x ∉ seenKeys) →
  keepUnseen key seenKeys l = l.
Proof.
  revert seenKeys. induction l as [|x l IH]; intros seenKeys Hnd Hs; simpl; [done|].
  rewrite fmap_cons in Hnd. apply NoDup_cons in Hnd as [Hx Hnd].
  destruct (decide (key x ∈ seenKeys)) as [Hin|_].
  - exfalso. apply (Hs x); [left|done].
  - f_equal. apply IH; [done|]. intros y Hy Hin.
    apply elem_of_cons in Hin as [Heq|Hin].
    + apply Hx. rewrite <- Heq. by apply list_elem_of_fmap_2.
    + apply (Hs y); [by right|done].
Qed.

End KeepUnseen.

(** ** The [seen] maps of the deduplication loops *)

Section Marks.
Context `{Countable K}.

Lemma Marks_empty : Marks (∅ : gmap K bool) [].
Proof.
  intros k. unfold flag. rewrite lookup_empty. simpl.
  split; [done|]. intros Hk. by apply elem_of_nil in Hk.
Qed.

Lemma flag_insert_true (s : gmap K bool) x k :
  flag (<[x:=true]> s) k = true ↔ k = x ∨ flag s k = true.
Proof.
  unfold flag. destruct (decide (x = k)) as [->|Hne].
  - rewrite lookup_insert_eq. simpl. naive_solver.
  - rewrite lookup_insert_ne by done. naive_solver.
Qed.

Lemma Marks_insert_new (s : gmap K bool) keys x : Marks s keys → Marks (<[x:=true]> s) (x :: keys).
Proof.
  intros Hm k. rewrite flag_insert_true, elem_of_cons, (Hm k). done.
Qed.

Lemma Marks_insert_old (s : gmap K bool) keys x :
  Marks s keys → x ∈ keys → Marks (<[x:=true]> s) keys.
Proof.
  intros Hm Hx k. rewrite flag_insert_true, (Hm k). naive_solver.
Qed.

Lemma Marks_flag_false (s : gmap K bool) keys x : Marks s keys → flag s x = false → x ∉ keys.
Proof. intros Hm Hf Hx. apply Hm in Hx. congruence. Qed.

Lemma Marks_flag_true (s : gmap K bool) keys x : Marks s keys → flag s x = true → x ∈ keys.
Proof. intros Hm Hf. by apply Hm. Qed.

End Marks.

(** [UniqueSliceElements] is the stable unique-filter. *)
Lemma UniqueSliceElements_loop `{Countable T} (l : list T) :
  ∀ out s keys, Marks s keys →
    (foldl (λ '(uniqueSlice, seen) element,
              if negb (flag seen element)
              then (uniqueSlice ++ [element], <[element:=true]> seen)
              else (uniqueSlice, seen)) (out, s) l).1
    = out ++ keepUnseen id keys l.
Proof.
  induction l as [|x l IH]; intros out s keys Hm; simpl.
  - by rewrite app_nil_r.
  - destruct (flag s x) eqn:Hf; simpl.
    + rewrite (IH _ _ keys Hm).
      rewrite decide_True by (by eapply Marks_flag_true). done.
    + rewrite (IH _ _ (x :: keys)) by (by apply Marks_insert_new).
      rewrite decide_False by (by eapply Marks_flag_false).
      by rewrite <- app_assoc.
Qed.

Lemma UniqueSliceElements_stableUnique `{Countable T} (l : list T) :
  UniqueSliceElements l = stableUnique l.
Proof.
  unfold UniqueSliceElements.
  rewrite (UniqueSliceElements_loop l [] ∅ [] Marks_empty). done.
Qed.

Lemma stableUnique_NoDup `{EqDecision A} (l : list A) : NoDup (stableUnique l).
Proof.
  unfold stableUnique, firstByKey.
  rewrite <- (list_fmap_id (keepUnseen id [] l)). apply keepUnseen_NoDup.
Qed.

Lemma stableUnique_id `{EqDecision A} (l : list A) : NoDup l → stableUnique l = l.
Proof.
  intros Hnd. apply keepUnseen_NoDup_id.
  - by rewrite list_fmap_id.
  - intros x _ Hx. by apply elem_of_nil in Hx.
Qed.

(** Lines 197-205 keep the first occurrence of every label. *)
Lemma finalLabels_loop (l : list string) :
  ∀ out s keys, Marks s keys →
    (foldl (λ '(labels, seenLabels) label,
              ((if negb (flag seenLabels label)
                then labels ++ [types.StringValue label]
                else labels),
               <[label := true]> seenLabels)) (out, s) l).1
    = out ++ (types.StringValue <$> keepUnseen id keys l).
Proof.
  induction l as [|x l IH]; intros out s keys Hm; simpl.
  - by rewrite app_nil_r.
  - destruct (flag s x) eqn:Hf; simpl.
    + assert (x ∈ keys) as Hx by (by eapply Marks_flag_true).
      rewrite (IH _ _ keys) by (by apply Marks_insert_old).
      by rewrite decide_True.
    + rewrite (IH _ _ (x :: keys)) by (by apply Marks_insert_new).
      rewrite decide_False by (by eapply Marks_flag_false).
      by rewrite fmap_cons, <- app_assoc.
Qed.

Lemma finalLabels_stableUnique c :
  finalLabels c = types.StringValue <$> stableUnique (contact.labels c).
Proof.
  unfold finalLabels.
  rewrite (finalLabels_loop _ [] ∅ [] Marks_empty). done.
Qed.

#[local] Instance StringValue_inj : Inj (=) (=) types.StringValue.
Proof. intros a b Heq. by injection Heq. Qed.

(** The second pass over the labels, [UniqueSliceElements], finds nothing
    left to remove. *)
Lemma finalLabels_unique c :
  UniqueSliceElements (finalLabels c)
  = types.StringValue <$> stableUnique (contact.labels c).
Proof.
  rewrite UniqueSliceElements_stableUnique, finalLabels_stableUnique.
  apply stableUnique_id. apply (NoDup_fmap_2 _), stableUnique_NoDup.
Qed.


(** ** What the second loop builds *)

Lemma ObjectValueMust_destination (d : destination.t) :
  types.ObjectValueMust (AttrTypes destinationSchema)
    {[ "code" := String (types.StringValue (destination.code d));
       "destination" := String (types.StringValue (destination.destination d)) ]}
  = Returned (destinationValue d).
Proof. reflexivity. Qed.

Lemma elementsOk_destinations (ds : list destination.t) :
  types.elementsOk destinationSchema (destinationValue <$> ds) = true.
Proof.
  unfold types.elementsOk. induction ds as [|d ds IH]; [done|].
  rewrite fmap_cons. cbn [forallb]. rewrite IH, andb_true_r. reflexivity.
Qed.

Lemma elementsOk_strings (ls : list attr.StringValue) :
  types.elementsOk StringType (String <$> ls) = true.
Proof.
  unfold types.elementsOk. induction ls as [|l ls IH]; [done|].
  rewrite fmap_cons. cbn [forallb]. rewrite IH, andb_true_r. reflexivity.
Qed.

Lemma MapValueMust_strings (m : gmap string string) :
  types.MapValueMust StringType ((λ s, String (types.StringValue s)) <$> m)
  = Returned (MapValue StringType ((λ s, String (types.StringValue s)) <$> m)).
Proof.
  unfold types.MapValueMust. rewrite bool_decide_eq_true_2; [done|].
  intros k e. rewrite lookup_fmap. intros Hk.
  destruct (m !! k); simplify_eq/=. done.
Qed.

Lemma ObjectValueMust_contact (ds ls vs : Value) :
  TypeOf ds = SetType destinationSchema →
  TypeOf ls = ListType StringType →
  TypeOf vs = MapType StringType →
  types.ObjectValueMust (AttrTypes returnSchema)
    {[ "destinations" := ds; "labels" := ls; "variables" := vs ]}
  = Returned (ObjectValue (AttrTypes returnSchema)
                {[ "destinations" := ds; "labels" := ls; "variables" := vs ]}).
Proof.
  intros Hds Hls Hvs. unfold types.ObjectValueMust.
  rewrite andb_true_intro; [done|]. split.
  - apply bool_decide_eq_true_2. intros name t Hname.
    unfold returnSchema, AttrTypes in Hname.
    unfold returnSchema, AttrTypes in Hname. map_cases Hname.
    + change (Equal (ListType StringType) (TypeOf ls) = true).
      by rewrite Hls.
    + change (Equal (MapType StringType) (TypeOf vs) = true).
      by rewrite Hvs.
    + change (Equal (SetType destinationSchema) (TypeOf ds) = true).
      by rewrite Hds.
  - apply bool_decide_eq_true_2. intros name v Hname.
    map_cases Hname; by eexists.
Qed.

(** A [range] over a Go map that stores a function of every entry under
    the entry's key builds the same map in every iteration order. *)
Lemma range_insert_fmap {A B} (g : A → B) (m : gmap string A)
      (l : list (string * A)) :
  l ≡ₚ map_to_list m →
  foldl (λ acc '(k, x), <[k := g x]> acc) (∅ : gmap string B) l = g <$> m.
Proof.
  intros Hp.
  assert (∀ (l : list (string * A)) (acc : gmap string B),
            foldl (λ acc '(k, x), <[k := g x]> acc) acc l
            = foldr (λ p : string * A, <[p.1 := g p.2]>) acc (reverse l))
    as Hfold.
  { clear. induction l as [|[k v] l IH]; intros acc; simpl; [done|].
    rewrite reverse_cons, foldr_app. simpl. apply IH. }
  rewrite Hfold.
  assert (∀ l : list (string * A),
            foldr (λ p : string * A, <[p.1 := g p.2]>) (∅ : gmap string B) l
            = list_to_map (prod_map id g <$> l)) as Hl2m.
  { clear. induction l as [|[k v] l IH]; simpl; [done|]. by rewrite IH. }
  rewrite Hl2m.
  rewrite <- (list_to_map_to_list (g <$> m)).
  apply list_to_map_proper.
  - rewrite <- list_fmap_compose.
    rewrite (list_fmap_ext (fst ∘ prod_map id g) fst) by (by intros ? [??] ?).
    rewrite reverse_Permutation, Hp. apply NoDup_fst_map_to_list.
  - rewrite map_to_list_fmap, reverse_Permutation, Hp. done.
Qed.

(** A loop whose body always returns is a plain fold. *)
Lemma rangeM_Returned {A B} (body : B → A → Outcome B) (step : B → A → B)
      (l : list A) :
  (∀ acc x, body acc x = Returned (step acc x)) →
  ∀ acc, rangeM body acc l = Returned (foldl step acc l).
Proof.
  intros Hbody. induction l as [|x l IH]; intros acc; simpl; [done|].
  rewrite Hbody. simpl. apply IH.
Qed.

Section FinalizeSpec.
Variable order : RangeOrder.
Hypothesis order_valid : ValidOrder order.

(** Lines 207-210 copy the variables, whatever the iteration order. *)
Lemma finalVariables_fmap c :
  finalVariables order c
  = (λ s, String (types.StringValue s)) <$> contact.variables c.
Proof.
  unfold finalVariables.
  apply (range_insert_fmap (λ s, String (types.StringValue s))), order_valid.
Qed.

(** Lines 212-227 keep the first destination of every destination value. *)
Lemma finalDestinations_loop (l : list destination.t) :
  ∀ out s keys, Marks s keys →
    fst <$>
    rangeM (λ '(destinations, seenDestination) dest,
              destinations ←
                (if negb (flag seenDestination (destination.destination dest))
                 then
                   obj ← types.ObjectValueMust (AttrTypes destinationSchema)
                         {[ "code" := String (types.StringValue (destination.code dest));
                            "destination" :=
                              String (types.StringValue (destination.destination dest)) ]};
                   Returned (destinations ++ [obj])
                 else Returned destinations);
              Returned (destinations,
                        <[destination.destination dest := true]> seenDestination))
           (out, s) l
    = Returned (out ++ (destinationValue <$>
                          keepUnseen destination.destination keys l)).
Proof.
  induction l as [|x l IH]; intros out s keys Hm; simpl.
  - by rewrite app_nil_r.
  - destruct (flag s (destination.destination x)) eqn:Hf; simpl.
    + assert (destination.destination x ∈ keys) as Hx
          by (by eapply Marks_flag_true).
      rewrite (IH _ _ keys) by (by apply Marks_insert_old).
      by rewrite decide_True.
    + rewrite ObjectValueMust_destination. simpl.
      rewrite (IH _ _ (destination.destination x :: keys))
        by (by apply Marks_insert_new).
      rewrite decide_False by (by eapply Marks_flag_false).
      by rewrite fmap_cons, <- app_assoc.
Qed.

Lemma finalDestinations_firstByKey c :
  finalDestinations c
  = Returned (destinationValue <$>
                firstByKey destination.destination (contact.destinations c)).
Proof.
  unfold finalDestinations.
  apply (finalDestinations_loop _ [] ∅ [] Marks_empty).
Qed.

(** The body of the second loop never panics and builds [contactValue]. *)
Lemma finalizeContact_contactValue c :
  finalizeContact order returnSchema c = Returned (contactValue c).
Proof.
  unfold finalizeContact.
  rewrite finalDestinations_firstByKey. simpl.
  unfold types.SetValueMust. rewrite elementsOk_destinations. simpl.
  rewrite finalLabels_unique.
  unfold types.ListValueMust. rewrite elementsOk_strings. simpl.
  rewrite finalVariables_fmap, MapValueMust_strings. simpl.
  by rewrite ObjectValueMust_contact.
Qed.

(** The second loop, in any iteration order. *)
Lemma Finalize_contactValue (seen : gmap string contact.t) :
  Finalize order returnSchema seen = Returned (contactValue <$> seen).
Proof.
  unfold Finalize.
  rewrite (rangeM_Returned _ (λ contacts '(n, c), <[n := contactValue c]> contacts)).
  - f_equal. apply range_insert_fmap, order_valid.
  - intros acc [n c]. by rewrite finalizeContact_contactValue.
Qed.

Lemma MapValueMust_contacts (seen : gmap string contact.t) :
  types.MapValueMust returnSchema (contactValue <$> seen)
  = Returned (MapValue returnSchema (contactValue <$> seen)).
Proof.
  unfold types.MapValueMust. rewrite bool_decide_eq_true_2; [done|].
  intros k e. rewrite lookup_fmap. intros Hk.
  destruct (seen !! k); simplify_eq/=. reflexivity.
Qed.

End FinalizeSpec.

(** ** What the first loop accumulates *)

Lemma foldl_snoc_fmap {A B} (g : A → B) (l : list A) (out : list B) :
  foldl (λ acc x, acc ++ [g x]) out l = out ++ (g <$> l).
Proof.
  revert out. induction l as [|x l IH]; intros out; simpl.
  - by rewrite app_nil_r.
  - by rewrite IH, <- app_assoc.
Qed.

Lemma elementLabels_labelTuple data v :
  elementLabels (Labels data) v = labelTuple data v.
Proof. unfold elementLabels. by rewrite foldl_snoc_fmap. Qed.

Lemma setVariables_fst fields v c log :
  (setVariables fields v c log).1
  = contact.mk (contact.mu c) (contact.destinations c) (contact.labels c)
      (foldl (λ vars field, <[field := index v field]> vars)
             (contact.variables c) fields).
Proof.
  unfold setVariables. revert c log.
  induction fields as [|f fields IH]; intros c log; simpl.
  - by destruct c.
  - by rewrite IH.
Qed.

Section GroupSpec.
Variable stripSpaces : string → string.
Variable data : UniqueContactModel.

Lemma rowsIn_snoc pre v name :
  rowsIn stripSpaces data (pre ++ [v]) name
  = rowsIn stripSpaces data pre name ++ (if decide (groupKey stripSpaces data v = name) then [v] else []).
Proof.
  unfold rowsIn. by rewrite filter_app.
Qed.

Lemma GroupInv_init : GroupInv stripSpaces data [] (mkWorld ∅ [] []).
Proof. intros name. simpl. rewrite lookup_empty. by right. Qed.

Lemma Tracks_snoc rows v c :
  Tracks data rows c →
  Tracks data (rows ++ [v])
    (contact.mk (contact.mu c)
       (contact.destinations c ++ [destinationPair data v])
       (contact.labels c ++ labelTuple data v)
       (writeVariables data (contact.variables c) v)).
Proof.
  intros (Hd & Hl & Hv). repeat split; simpl.
  - by rewrite Hd, fmap_app.
  - rewrite Hl, bind_app. simpl. by rewrite app_nil_r.
  - rewrite Hv. unfold mergedVariables. by rewrite foldl_app.
Qed.

(** One iteration of the first loop returns and keeps the invariant. *)
Lemma groupElement_inv pre w i v :
  GroupInv stripSpaces data pre w →
  ∃ w', groupElement stripSpaces data (Labels data) (Variables data) w i v
        = Returned w' ∧
        GroupInv stripSpaces data (pre ++ [v]) w'.
Proof.
  intros Hinv. unfold groupElement.
  fold (groupKey stripSpaces data v).
  set (name := groupKey stripSpaces data v).
  destruct (decide (name = "")) as [Hname|Hname].
  { eexists. split; [done|]. intros n. simpl. rewrite rowsIn_snoc.
    fold name. specialize (Hinv n). destruct (seen w !! n) as [c|].
    - destruct Hinv as (Hn & Hrows & Htr & Hmu).
      rewrite decide_False by congruence. rewrite app_nil_r. done.
    - destruct Hinv as [Hn|Hrows]; [by left|].
      destruct (decide (name = n)) as [<-|?]; [by left|].
      right. by rewrite Hrows. }
  (* After lines 155-162 the contact exists. *)
  match goal with
  | |- context [ Lock _ (mutexes ?x) ] => set (w1 := x)
  end.
  assert (∃ c1 l, seen w1 !! name = Some c1 ∧
                  Tracks data (rowsIn stripSpaces data pre name) c1 ∧
                  contact.mu c1 = Some l ∧ mutexes w1 !! l = Some false ∧
                  tflog w1 = tflog w ∧
                  (∀ n, n ≠ name → seen w1 !! n = seen w !! n) ∧
                  (∀ l', mutexes w !! l' = Some false →
                         mutexes w1 !! l' = Some false))
    as (c1 & l & Hc1 & Htr1 & Hmu1 & Hl1 & Hlog1 & Hother & Hcells).
  { subst w1. pose proof (Hinv name) as Hn.
    destruct (seen w !! name) as [c|] eqn:Hlook.
    - destruct Hn as (_ & _ & Htr & l & Hmu & Hl).
      exists c, l. repeat (split; [done|]). done.
    - destruct Hn as [?|Hrows]; [done|]. simpl.
      exists (contact.mk (Some (length (mutexes w))) [] [] ∅),
             (length (mutexes w)).
      split; [by rewrite lookup_insert_eq|].
      split; [by rewrite Hrows|].
      split; [done|].
      split; [by rewrite lookup_app_r, Nat.sub_diag|].
      split; [done|].
      split.
      + intros n Hne. by rewrite lookup_insert_ne.
      + intros l' Hl'. rewrite lookup_app_l; [done|].
        by eapply lookup_lt_Some. }
  clearbody w1.
  assert (seenAt w1 name = c1) as Hat1
      by (unfold seenAt; by rewrite Hc1).
  assert (∀ h lg, seenAt (mkWorld (seen w1) h lg) name = c1) as Hat
      by (intros; unfold seenAt; simpl; by rewrite Hc1).
  rewrite Hat1, Hmu1. unfold Lock. rewrite Hl1. simpl.
  rewrite !Hat, elementLabels_labelTuple.
  match goal with
  | |- context [ setVariables ?fs ?v ?c ?lg ] =>
      pose proof (setVariables_fst fs v c lg) as Hset;
      destruct (setVariables fs v c lg) as [c' log']
  end.
  simpl in Hset. subst c'. simpl.
  unfold seenAt. simpl. rewrite lookup_insert_eq. simpl.
  assert (l < length (mutexes w1)) as Hlt by (by eapply lookup_lt_Some).
  rewrite Hmu1. unfold Unlock. rewrite list_lookup_insert_eq by done. simpl.
  eexists. split; [done|].
  rewrite list_insert_insert_eq, list_insert_id by done.
  intros n. simpl. rewrite rowsIn_snoc. fold name.
  destruct (decide (name = n)) as [<-|Hne].
  - rewrite lookup_insert_eq. split; [done|]. split.
    { intros Happ. by apply app_nil in Happ as [_ ?]. }
    split.
    + fold (destinationPair data v).
      apply (Tracks_snoc _ v c1) in Htr1. by rewrite Hmu1 in Htr1.
    + by exists l.
  - rewrite lookup_insert_ne, Hother by done. rewrite app_nil_r.
    specialize (Hinv n). destruct (seen w !! n) as [c|]; [|done].
    destruct Hinv as (? & ? & ? & l' & ? & ?).
    repeat (split; [done|]). exists l'. split; [done|]. by apply Hcells.
Qed.

(** The first loop returns, and its state tracks every group. *)
Lemma rangeElements_inv els :
  ∀ pre w i, GroupInv stripSpaces data pre w →
    ∃ w', rangeElements
            (groupElement stripSpaces data (Labels data) (Variables data))
            w i els = Returned w' ∧
          GroupInv stripSpaces data (pre ++ els) w'.
Proof.
  induction els as [|v els IH]; intros pre w i Hinv; simpl.
  - exists w. by rewrite app_nil_r.
  - destruct (groupElement_inv pre w i v Hinv) as (w1 & -> & Hinv1). simpl.
    destruct (IH _ w1 (S i) Hinv1) as (w' & Hw' & Hinv').
    exists w'. split; [done|]. by rewrite <- app_assoc in Hinv'.
Qed.

Lemma Group_inv :
  ∃ w, Group stripSpaces data (Labels data) (Variables data) = Returned w ∧
       GroupInv stripSpaces data (CSV data) w.
Proof. apply (rangeElements_inv (CSV data) [] _ 0 GroupInv_init). Qed.

End GroupSpec.

(** ** [Run] as a whole *)

Lemma Equal_Return : Equal Return (MapType returnSchema) = true.
Proof. vm_compute. reflexivity. Qed.

Lemma Tracks_contactValue data rows c :
  Tracks data rows c → contactValue c = rowsValue data rows.
Proof.
  intros (Hd & Hl & Hv). unfold rowsValue, contactValue. simpl.
  by rewrite Hd, Hl, Hv.
Qed.

Lemma mapM_stringOf (l : list string) :
  mapM stringOf (String <$> (types.StringValue <$> l)) = Some l.
Proof.
  induction l as [|x l IH]; [done|].
  rewrite !fmap_cons. cbn [mapM]. rewrite IH. done.
Qed.

Lemma mapM_destinationOf (ds : list destination.t) :
  mapM destinationOf (destinationValue <$> ds) = Some ds.
Proof.
  induction ds as [|[c d] ds IH]; [done|].
  rewrite fmap_cons. cbn [mapM]. rewrite IH. reflexivity.
Qed.

Lemma stringMapOf_strings (m : gmap string string) :
  stringMapOf ((λ s, String (types.StringValue s)) <$> m) = Some m.
Proof.
  unfold stringMapOf. rewrite bool_decide_eq_true_2.
  - f_equal. apply map_eq. intros k.
    rewrite lookup_omap, lookup_fmap. by destruct (m !! k).
  - intros k e. rewrite lookup_fmap. intros Hk.
    destruct (m !! k); simplify_eq/=. by eexists.
Qed.

Lemma summaryOf_contactValue c :
  summaryOf (contactValue c) = Some (contactSummary c).
Proof.
  unfold contactValue, summaryOf. simpl.
  change (({[ "destinations" := ?d; "labels" := ?l; "variables" := ?v ]}
            : gmap string Value) !! "labels") with (Some l).
  change (({[ "destinations" := ?d; "labels" := ?l; "variables" := ?v ]}
            : gmap string Value) !! "variables") with (Some v).
  change (({[ "destinations" := ?d; "labels" := ?l; "variables" := ?v ]}
            : gmap string Value) !! "destinations") with (Some d).
  simpl. rewrite mapM_stringOf. simpl.
  rewrite stringMapOf_strings. simpl.
  rewrite mapM_destinationOf. done.
Qed.

Lemma summaryOf_rowsValue data rows :
  summaryOf (rowsValue data rows) = Some (rowsSummary data rows).
Proof. apply summaryOf_contactValue. Qed.

Section RunSpec.
Variable stripSpaces : string → string.
Variable order : RangeOrder.
Hypothesis order_valid : ValidOrder order.

(** [Run] returns, leaves the error of the response as it found it, and
    sets the result to the map of the groups' values. *)
Lemma Run_returns data resp :
  ∃ w, Group stripSpaces data (Labels data) (Variables data) = Returned w ∧
       GroupInv stripSpaces data (CSV data) w ∧
       Run stripSpaces order data resp
       = (Returned (mkResponse (Error resp)
                      (Some (MapValue returnSchema (contactValue <$> seen w)))),
          tflog w).
Proof.
  destruct (Group_inv stripSpaces data) as (w & Hg & Hinv).
  exists w. split; [done|]. split; [done|].
  unfold Run. rewrite Hg.
  rewrite (Finalize_contactValue order order_valid). simpl.
  rewrite MapValueMust_contacts. simpl.
  unfold ResultSet. cbn [TypeOf]. rewrite Equal_Return. simpl.
  by destruct (Error resp).
Qed.

(** The contacts of the result, group by group. *)
Lemma RunContacts_lookup data :
  ∃ m, RunContacts stripSpaces order data = Some m ∧
       ∀ name,
         m !! name =
         if decide (name = "" ∨ groupRows stripSpaces data name = [])
         then None
         else Some (rowsValue data (groupRows stripSpaces data name)).
Proof.
  destruct (Run_returns data emptyResponse) as (w & _ & Hinv & Hrun).
  exists (contactValue <$> seen w). split.
  - unfold RunContacts. by rewrite Hrun.
  - intros name. rewrite lookup_fmap. specialize (Hinv name).
    change (rowsIn stripSpaces data (CSV data) name)
      with (groupRows stripSpaces data name) in Hinv.
    destruct (seen w !! name) as [c|]; simpl.
    + destruct Hinv as (Hn & Hrows & Htr & _).
      rewrite decide_False by tauto.
      by rewrite (Tracks_contactValue _ _ _ Htr).
    + by rewrite decide_True.
Qed.

Lemma RunSummary_spec data name :
  RunSummary stripSpaces order data name =
  if decide (name = "" ∨ groupRows stripSpaces data name = [])
  then None
  else Some (rowsSummary data (groupRows stripSpaces data name)).
Proof.
  unfold RunSummary.
  destruct (RunContacts_lookup data) as (m & -> & Hm). simpl.
  rewrite Hm. destruct (decide _); [done|]. simpl.
  apply summaryOf_rowsValue.
Qed.

Lemma RunSummary_Some data name s :
  RunSummary stripSpaces order data name = Some s →
  name ≠ "" ∧ groupRows stripSpaces data name ≠ [] ∧
  s = rowsSummary data (groupRows stripSpaces data name).
Proof.
  rewrite RunSummary_spec. destruct (decide _) as [|Hn]; [done|].
  intros [= <-]. tauto.
Qed.

End RunSpec.

(** ** The merged variables *)

Lemma lookup_foldl_write (fields : list string) (v vars : gmap string string) f :
  foldl (λ vars field, <[field := index v field]> vars) vars fields !! f
  = if decide (f ∈ fields) then Some (index v f) else vars !! f.
Proof.
  revert vars. induction fields as [|g fields IH]; intros vars; cbn [foldl].
  - rewrite decide_False; [done|]. intros Hf. by apply elem_of_nil in Hf.
  - rewrite IH. destruct (decide (f ∈ fields)) as [Hin|Hin].
    + rewrite decide_True; [done|]. by right.
    + destruct (decide (f = g)) as [->|Hne].
      * rewrite lookup_insert_eq, decide_True; [done|]. by left.
      * rewrite lookup_insert_ne by done. rewrite decide_False; [done|].
        intros [?|?]%elem_of_cons; done.
Qed.

Lemma lookup_writeVariables data vars v f :
  writeVariables data vars v !! f
  = if decide (f ∈ Variables data) then Some (index v f) else vars !! f.
Proof. apply lookup_foldl_write. Qed.

Lemma mergedVariables_snoc data rows v :
  mergedVariables data (rows ++ [v])
  = writeVariables data (mergedVariables data rows) v.
Proof. unfold mergedVariables. by rewrite foldl_app. Qed.

Lemma lookup_mergedVariables_other data rows f :
  f ∉ Variables data → mergedVariables data rows !! f = None.
Proof.
  intros Hf. induction rows as [|v rows IH] using rev_ind.
  - apply lookup_empty.
  - rewrite mergedVariables_snoc, lookup_writeVariables.
    by rewrite decide_False.
Qed.

(** Last writer wins: after a non-empty sequence of records, every
    variable field holds what the last record reads for it, and nothing
    else is in the map. *)
Lemma lookup_mergedVariables_last data rows last f :
  mergedVariables data (rows ++ [last]) !! f
  = if decide (f ∈ Variables data) then Some (index last f) else None.
Proof.
  rewrite mergedVariables_snoc, lookup_writeVariables.
  destruct (decide _); [done|]. by apply lookup_mergedVariables_other.
Qed.

Lemma nonempty_last {A} (l : list A) : l ≠ [] → ∃ l' x, l = l' ++ [x].
Proof.
  destruct l as [|y l] using rev_ind; [done|]. intros _. by exists l, y.
Qed.

Lemma index_missing (v : gmap string string) f : v !! f = None → index v f = "".
Proof. unfold index. by intros ->. Qed.

Lemma canonicalOrder_valid : ValidOrder canonicalOrder.
Proof. intros A m. reflexivity. Qed.

(** ** Examples

    The rows of the provider's acceptance test
    ([TestUniqueContactFunction_Known]) and the values it expects. *)

Example known_foo1 :
  RunSummary Trim.TrimSpace canonicalOrder knownData "foo1" = Some knownFoo1.
Proof. vm_compute. reflexivity. Qed.

Example known_bar1 :
  RunSummary Trim.TrimSpace canonicalOrder knownData "bar1" = Some knownBar1.
Proof. vm_compute. reflexivity. Qed.

Example known_keys :
  dom <$> RunContacts Trim.TrimSpace canonicalOrder knownData
  = Some ({[ "foo1"; "bar1" ]} : gset string).
Proof. vm_compute. reflexivity. Qed.

Example known_log :
  (Run Trim.TrimSpace canonicalOrder knownData emptyResponse).2
  = [ VariableAlreadyExists "name"; VariableAlreadyExists "name" ].
Proof. vm_compute. reflexivity. Qed.

Example merge_ann :
  RunSummary Trim.TrimSpace canonicalOrder mergeData "ann" = Some mergeAnn.
Proof. vm_compute. reflexivity. Qed.

Example merge_bob :
  RunSummary Trim.TrimSpace canonicalOrder mergeData "bob" = Some mergeBob.
Proof. vm_compute. reflexivity. Qed.

Example merge_keys :
  dom <$> RunContacts Trim.TrimSpace canonicalOrder mergeData
  = Some ({[ "ann"; "bob" ]} : gset string).
Proof. vm_compute. reflexivity. Qed.

Example merge_log :
  (Run Trim.TrimSpace canonicalOrder mergeData emptyResponse).2
  = [ ElementHasEmptyName 2 "";
      VariableAlreadyExists "color"; VariableAlreadyExists "size" ].
Proof. vm_compute. reflexivity. Qed.

(** No rows: an empty map and no warning. *)
Example empty_run :
  Run Trim.TrimSpace canonicalOrder (withCSV knownData []) emptyResponse
  = (Returned (mkResponse None (Some (MapValue returnSchema ∅))), []).
Proof. vm_compute. reflexivity. Qed.

(** ** Further facts on the stable unique-filter *)

Lemma keepUnseen_kept {A} `{EqDecision K} (key : A → K) seenKeys l1 y l2 :
  key y ∉ seenKeys ++ (key <$> l1) →
  y ∈ keepUnseen key seenKeys (l1 ++ y :: l2).
Proof.
  revert seenKeys. induction l1 as [|x l1 IH]; intros seenKeys Hy; simpl.
  - rewrite decide_False; [by left|].
    intros Hin. apply Hy. simpl. by rewrite app_nil_r.
  - rewrite fmap_cons in Hy.
    destruct (decide (key x ∈ seenKeys)).
    + apply IH. intros Hin. apply Hy.
      rewrite elem_of_app, elem_of_cons. rewrite elem_of_app in Hin. tauto.
    + right. apply IH. intros Hin. apply Hy.
      rewrite elem_of_app, elem_of_cons.
      rewrite elem_of_app, elem_of_cons in Hin. tauto.
Qed.

Lemma NoDup_fmap_eq {A B} (f : A → B) (l : list A) x y :
  NoDup (f <$> l) → x ∈ l → y ∈ l → f x = f y → x = y.
Proof.
  induction l as [|z l IH]; intros Hnd Hx Hy Hxy.
  - by apply elem_of_nil in Hx.
  - rewrite fmap_cons in Hnd. apply NoDup_cons in Hnd as [Hz Hnd].
    apply elem_of_cons in Hx as [->|Hx]; apply elem_of_cons in Hy as [->|Hy].
    + done.
    + exfalso. apply Hz. rewrite Hxy. by apply list_elem_of_fmap_2.
    + exfalso. apply Hz. rewrite <- Hxy. by apply list_elem_of_fmap_2.
    + by apply IH.
Qed.

(** ** The claims *)

(** C1.  The destinations of a group are the destination pairs of the
    group's records, in input order, filtered by keeping a pair exactly
    when no earlier pair of the group has the same destination value.  So
    the kept pairs form a subsequence in first-seen order, no destination
    value is kept twice, every pair whose destination value is new at its
    position is kept, every kept pair is such a pair, and of two records
    with the same destination value but different codes only the earlier
    can be kept. *)
Theorem destinations_keep_first_by_destination
        (stripSpaces : string → string) (order : RangeOrder)
        (data : UniqueContactModel) (name : string) (s : Summary.t) :
  ValidOrder order →
  RunSummary stripSpaces order data name = Some s →
  let ds := destinationPair data <$> groupRows stripSpaces data name in
  let out := Summary.destinations s in
  out = firstByKey destination.destination ds ∧
  out `sublist_of` ds ∧
  NoDup (destination.destination <$> out) ∧
  (∀ l1 d l2, ds = l1 ++ d :: l2 →
     destination.destination d ∉ destination.destination <$> l1 → d ∈ out) ∧
  (∀ d, d ∈ out →
     ∃ l1 l2, ds = l1 ++ d :: l2 ∧
              destination.destination d ∉ destination.destination <$> l1) ∧
  (∀ l1 d1 l2 d2 l3, ds = l1 ++ d1 :: l2 ++ d2 :: l3 →
     destination.destination d1 = destination.destination d2 →
     destination.code d1 ≠ destination.code d2 →
     destination.destination d1 ∉ destination.destination <$> l1 →
     d1 ∈ out ∧ d2 ∉ out).
Proof.
  intros Hvalid Hs ds out.
  apply (RunSummary_Some _ _ Hvalid) in Hs as (_ & _ & ->).
  subst out. simpl. fold ds.
  assert (∀ l1 d l2, ds = l1 ++ d :: l2 →
            destination.destination d ∉ destination.destination <$> l1 →
            d ∈ firstByKey destination.destination ds) as Hkept.
  { intros l1 d l2 -> Hd. by apply keepUnseen_kept. }
  pose proof (keepUnseen_NoDup destination.destination [] ds) as Hnd.
  split; [done|]. split; [apply keepUnseen_sublist|]. split; [done|].
  split; [done|]. split.
  - intros d Hd. by apply keepUnseen_first in Hd.
  - intros l1 d1 l2 d2 l3 Hds Hkey Hcode Hfirst.
    assert (d1 ∈ firstByKey destination.destination ds) as H1
        by (by eapply Hkept).
    split; [done|]. intros H2.
    apply Hcode. f_equal. by eapply NoDup_fmap_eq.
Qed.

Lemma destinations_keep_first_by_destination_witness :
  Summary.destinations knownFoo1
  = firstByKey destination.destination
      (destinationPair knownData <$> groupRows Trim.TrimSpace knownData "foo1").
Proof.
  apply (destinations_keep_first_by_destination
           Trim.TrimSpace canonicalOrder knownData "foo1" knownFoo1).
  - intros A m. reflexivity.
  - vm_compute. reflexivity.
Defined.

(** C2.  The labels of a group are the stable unique-filter of the
    concatenation, in input order, of the label tuples of the group's
    records; a record's tuple reads the record at every label field, in
    list order, a missing field giving the empty string.  Values are
    compared one by one, so no string occurs twice, every value of the
    concatenation occurs, and the order is that of first occurrence. *)
Theorem labels_stable_unique
        (stripSpaces : string → string) (order : RangeOrder)
        (data : UniqueContactModel) (name : string) (s : Summary.t) :
  ValidOrder order →
  RunSummary stripSpaces order data name = Some s →
  let flat := groupRows stripSpaces data name ≫= labelTuple data in
  (∀ v, labelTuple data v = (λ f, default "" (v !! f)) <$> Labels data) ∧
  Summary.labels s = stableUnique flat ∧
  NoDup (Summary.labels s) ∧
  (∀ x, x ∈ Summary.labels s ↔ x ∈ flat) ∧
  Summary.labels s `sublist_of` flat ∧
  (∀ l1 x l2, flat = l1 ++ x :: l2 → x ∉ l1 → x ∈ Summary.labels s) ∧
  (∀ x, x ∈ Summary.labels s → ∃ l1 l2, flat = l1 ++ x :: l2 ∧ x ∉ l1).
Proof.
  intros Hvalid Hs flat.
  apply (RunSummary_Some _ _ Hvalid) in Hs as (_ & _ & ->).
  simpl. fold flat.
  split; [done|]. split; [done|]. split; [apply stableUnique_NoDup|].
  split.
  { intros x. pose proof (keepUnseen_keys id [] flat x) as Hk.
    rewrite !list_fmap_id in Hk. unfold stableUnique, firstByKey.
    rewrite Hk. split; [tauto|]. intros Hx. split; [done|].
    intros Hnil. by apply elem_of_nil in Hnil. }
  split; [apply keepUnseen_sublist|]. split.
  - intros l1 x l2 -> Hx. apply (keepUnseen_kept id). simpl.
    by rewrite list_fmap_id.
  - intros x Hx. apply (keepUnseen_first id) in Hx as (l1 & l2 & Hflat & Hn).
    exists l1, l2. split; [done|]. simpl in Hn. by rewrite list_fmap_id in Hn.
Qed.

Lemma labels_stable_unique_witness :
  Summary.labels knownFoo1
  = stableUnique (groupRows Trim.TrimSpace knownData "foo1" ≫= labelTuple knownData).
Proof.
  apply (labels_stable_unique
           Trim.TrimSpace canonicalOrder knownData "foo1" knownFoo1).
  - intros A m. reflexivity.
  - vm_compute. reflexivity.
Defined.

(** C3.  Last writer wins: a group has a last record, and every variable
    field holds the value that record reads for it (the empty string when
    the record has no such field), whatever the earlier records read.  In
    particular, when an earlier record [Ri] and the last record [Rj] read
    different values, the result is the value of [Rj]; and at any record
    [Rj] of the group, once the input up to [Rj] is processed, every
    variable field holds the value of [Rj], whatever the records before it
    wrote. *)
Theorem variables_last_writer_wins
        (stripSpaces : string → string) (order : RangeOrder)
        (data : UniqueContactModel) (name : string) (s : Summary.t) :
  ValidOrder order →
  RunSummary stripSpaces order data name = Some s →
  (∃ rows last,
     groupRows stripSpaces data name = rows ++ [last] ∧
     ∀ f, f ∈ Variables data →
          Summary.variables s !! f = Some (index last f)) ∧
  (∀ l1 Ri l2 Rj f,
     groupRows stripSpaces data name = l1 ++ Ri :: l2 ++ [Rj] →
     f ∈ Variables data →
     index Ri f ≠ index Rj f →
     Summary.variables s !! f = Some (index Rj f)) ∧
  (∀ pre Rj post,
     CSV data = pre ++ Rj :: post →
     groupKey stripSpaces data Rj = name →
     ∃ s', RunSummary stripSpaces order (withCSV data (pre ++ [Rj])) name
           = Some s' ∧
           ∀ f, f ∈ Variables data →
                Summary.variables s' !! f = Some (index Rj f)).
Proof.
  intros Hvalid Hs.
  apply (RunSummary_Some _ _ Hvalid) in Hs as (Hname & Hrows & ->). simpl.
  split; [|split].
  - destruct (nonempty_last _ Hrows) as (rows & last & Heq).
    exists rows, last. split; [done|]. intros f Hf.
    by rewrite Heq, lookup_mergedVariables_last, decide_True.
  - intros l1 Ri l2 Rj f Heq Hf _.
    rewrite Heq. change (l1 ++ Ri :: l2 ++ [Rj]) with (l1 ++ (Ri :: l2) ++ [Rj]).
    rewrite app_assoc.
    by rewrite lookup_mergedVariables_last, decide_True.
  - intros pre Rj post _ Hkey.
    assert (groupRows stripSpaces (withCSV data (pre ++ [Rj])) name
            = rowsIn stripSpaces data pre name ++ [Rj]) as Heq.
    { change (groupRows stripSpaces (withCSV data (pre ++ [Rj])) name)
        with (rowsIn stripSpaces data (pre ++ [Rj]) name).
      by rewrite rowsIn_snoc, decide_True. }
    eexists. split.
    + rewrite (RunSummary_spec _ _ Hvalid), Heq, decide_False; [done|].
      intros [?|Hnil]; [done|]. by apply app_nil in Hnil as [_ ?].
    + intros f Hf. simpl.
      change (mergedVariables (withCSV data (pre ++ [Rj])))
        with (mergedVariables data).
      by rewrite lookup_mergedVariables_last, decide_True.
Qed.

Lemma variables_last_writer_wins_witness :
  Summary.variables mergeAnn !! "color" = Some (index annLast "color").
Proof.
  apply (proj1 (proj2 (variables_last_writer_wins
                  Trim.TrimSpace canonicalOrder mergeData "ann" mergeAnn
                  (λ A m, reflexivity _) eq_refl))
               [] annFirst [] annLast "color").
  - vm_compute. reflexivity.
  - simpl. left.
  - vm_compute. discriminate.
Defined.

Lemma dom_mergedVariables data rows :
  rows ≠ [] →
  dom (mergedVariables data rows) = list_to_set (Variables data).
Proof.
  intros (rows' & last & ->)%nonempty_last.
  apply set_eq. intros f.
  rewrite elem_of_dom, elem_of_list_to_set, lookup_mergedVariables_last.
  destruct (decide (f ∈ Variables data)) as [Hf|Hf].
  - split; [done|]. by eexists.
  - split; [|done]. by intros [? ?].
Qed.

Lemma groupRows_filter_nonblank stripSpaces data name :
  name ≠ "" →
  groupRows stripSpaces
    (withCSV data (filter (λ v, groupKey stripSpaces data v ≠ "") (CSV data)))
    name
  = groupRows stripSpaces data name.
Proof.
  intros Hname. unfold groupRows. simpl.
  change (groupKey stripSpaces (withCSV data ?els)) with (groupKey stripSpaces data).
  rewrite list_filter_filter. apply list_filter_iff.
  intros v. split; [tauto|]. intros Hv. split; [done|]. congruence.
Qed.

(** C4.  [Run] returns a map whose keys are exactly the non-empty values
    that [stripSpaces] gives for the group-by field of some record.  A
    record whose processed group-by value is empty belongs to no group and
    can be dropped from the input without changing the result, and every
    key of the result has a record of its own. *)
Theorem result_keys_are_group_keys
        (stripSpaces : string → string) (order : RangeOrder)
        (data : UniqueContactModel) :
  ValidOrder order →
  ∃ m, RunContacts stripSpaces order data = Some m ∧
       (∀ name, name ∈ dom m ↔
                name ≠ "" ∧
                ∃ v, v ∈ CSV data ∧ groupKey stripSpaces data v = name) ∧
       dom m = list_to_set
                 (filter (λ k, k ≠ "") (groupKey stripSpaces data <$> CSV data)) ∧
       RunContacts stripSpaces order
         (withCSV data
            (filter (λ v, groupKey stripSpaces data v ≠ "") (CSV data)))
       = Some m ∧
       (∀ v name, v ∈ CSV data → groupKey stripSpaces data v = "" →
                  name ∈ dom m → v ∉ groupRows stripSpaces data name) ∧
       (∀ name, name ∈ dom m → groupRows stripSpaces data name ≠ []).
Proof.
  intros Hvalid.
  destruct (RunContacts_lookup stripSpaces order Hvalid data) as (m & Hm & Hlook).
  assert (∀ name, name ∈ dom m ↔
                  name ≠ "" ∧ groupRows stripSpaces data name ≠ []) as Hdom.
  { intros name. rewrite elem_of_dom, Hlook.
    destruct (decide _) as [Hd|Hd].
    - split; [by intros [? ?]|]. tauto.
    - split; [tauto|]. by eexists. }
  assert (∀ name, groupRows stripSpaces data name ≠ [] ↔
                  ∃ v, v ∈ CSV data ∧ groupKey stripSpaces data v = name)
    as Hrows.
  { intros name. unfold groupRows. split.
    - intros Hne. destruct (filter _ _) as [|v l] eqn:Hf; [done|].
      assert (v ∈ filter (λ v, groupKey stripSpaces data v = name) (CSV data))
        as Hin by (rewrite Hf; by left).
      apply list_elem_of_filter in Hin as [? ?]. by exists v.
    - intros (v & Hv & Hk) Hnil.
      assert (v ∈ filter (λ v, groupKey stripSpaces data v = name) (CSV data))
        as Hin by (by apply list_elem_of_filter).
      rewrite Hnil in Hin. by apply elem_of_nil in Hin. }
  exists m. split; [done|]. split.
  { intros name. by rewrite Hdom, Hrows. }
  split.
  { apply set_eq. intros name.
    rewrite Hdom, Hrows, elem_of_list_to_set, list_elem_of_filter,
            list_elem_of_fmap.
    split.
    - intros (Hn & v & Hv & Hk). split; [done|]. by exists v.
    - intros (Hn & v & Hk & Hv). split; [done|]. by exists v. }
  split.
  { destruct (RunContacts_lookup stripSpaces order Hvalid
                (withCSV data
                   (filter (λ v, groupKey stripSpaces data v ≠ "") (CSV data))))
      as (m' & Hm' & Hlook').
    rewrite Hm'. f_equal. apply map_eq. intros name.
    rewrite Hlook, Hlook'.
    destruct (decide (name = "")) as [->|Hname].
    - by rewrite !decide_True by (by left).
    - by rewrite (groupRows_filter_nonblank _ _ _ Hname). }
  split.
  - intros v name Hv Hk Hname Hin.
    apply Hdom in Hname as [Hname _].
    apply list_elem_of_filter in Hin as [Hk' _]. congruence.
  - intros name Hname. by apply Hdom in Hname as [_ ?].
Qed.

Lemma result_keys_are_group_keys_witness :
  ∃ m, RunContacts Trim.TrimSpace canonicalOrder mergeData = Some m ∧
       (∀ name, name ∈ dom m ↔
                name ≠ "" ∧
                ∃ v, v ∈ CSV mergeData ∧
                     groupKey Trim.TrimSpace mergeData v = name) ∧
       dom m = list_to_set
                 (filter (λ k, k ≠ "")
                         (groupKey Trim.TrimSpace mergeData <$> CSV mergeData)) ∧
       RunContacts Trim.TrimSpace canonicalOrder
         (withCSV mergeData
            (filter (λ v, groupKey Trim.TrimSpace mergeData v ≠ "")
                    (CSV mergeData)))
       = Some m ∧
       (∀ v name, v ∈ CSV mergeData →
                  groupKey Trim.TrimSpace mergeData v = "" →
                  name ∈ dom m → v ∉ groupRows Trim.TrimSpace mergeData name) ∧
       (∀ name, name ∈ dom m → groupRows Trim.TrimSpace mergeData name ≠ []).
Proof.
  apply (result_keys_are_group_keys Trim.TrimSpace canonicalOrder mergeData).
  intros A m. reflexivity.
Defined.

(** C5, as the specification states it, fails: in the group of [bob] the
    variable field [size] is a key of the variables although no record of
    the group has a field [size]. *)
Lemma variables_absent_field_counterexample :
  RunSummary Trim.TrimSpace canonicalOrder mergeData "bob" = Some mergeBob ∧
  "size" ∈ Variables mergeData ∧
  "size" ∈ dom (Summary.variables mergeBob) ∧
  ¬ (∃ v, v ∈ groupRows Trim.TrimSpace mergeData "bob" ∧ is_Some (v !! "size")).
Proof.
  split; [vm_compute; reflexivity|].
  split; [simpl; right; left|].
  split.
  - apply elem_of_dom. exists "". vm_compute. reflexivity.
  - change (groupRows Trim.TrimSpace mergeData "bob")
      with (filter (λ v, groupKey Trim.TrimSpace mergeData v = "bob")
                   [annFirst; bobOnly; blankRow; annLast]).
    intros (v & Hv & [x Hx]).
    apply list_elem_of_filter in Hv as [Hk Hv].
    repeat (apply elem_of_cons in Hv as [->|Hv]);
      [vm_compute in Hk; discriminate
      |vm_compute in Hx; discriminate
      |vm_compute in Hk; discriminate
      |vm_compute in Hk; discriminate
      |by apply elem_of_nil in Hv].
Qed.

(** C5, amended.  The keys of a group's variables are exactly the fields
    of [variableFields], whether or not a record of the group has them: a
    field that occurs in a record of the group is a key, and so is a
    field that occurs in none, which then maps to the empty string. *)
Theorem variables_keys_are_variable_fields
        (stripSpaces : string → string) (order : RangeOrder)
        (data : UniqueContactModel) (name : string) (s : Summary.t) :
  ValidOrder order →
  RunSummary stripSpaces order data name = Some s →
  (∀ f, f ∈ dom (Summary.variables s) ↔ f ∈ Variables data) ∧
  (∀ f, f ∈ Variables data →
        (∃ v, v ∈ groupRows stripSpaces data name ∧ is_Some (v !! f)) →
        f ∈ dom (Summary.variables s)) ∧
  (∀ f, f ∈ Variables data →
        (∀ v, v ∈ groupRows stripSpaces data name → v !! f = None) →
        Summary.variables s !! f = Some "").
Proof.
  intros Hvalid Hs.
  apply (RunSummary_Some _ _ Hvalid) in Hs as (_ & Hrows & ->). simpl.
  assert (∀ f, f ∈ dom (mergedVariables data (groupRows stripSpaces data name))
               ↔ f ∈ Variables data) as Hdom.
  { intros f. by rewrite dom_mergedVariables, elem_of_list_to_set. }
  split; [done|]. split.
  - intros f Hf _. by apply Hdom.
  - intros f Hf Habsent.
    destruct (nonempty_last _ Hrows) as (rows & last & Heq).
    rewrite Heq, lookup_mergedVariables_last, decide_True by done.
    f_equal. apply index_missing, Habsent. rewrite Heq.
    apply elem_of_app. right. by left.
Qed.

Lemma variables_keys_are_variable_fields_witness :
  "size" ∈ dom (Summary.variables mergeBob) ↔ "size" ∈ Variables mergeData.
Proof.
  apply (proj1 (variables_keys_are_variable_fields
                  Trim.TrimSpace canonicalOrder mergeData "bob" mergeBob
                  (λ A m, reflexivity _) eq_refl)).
Defined.

(** C9.  The key set of a group's variables is the set of the names in
    [variableFields]: every group of the result has a record, the record
    writes every variable field, and a field that no record of the group
    has is written as the empty string. *)
Theorem variables_dom_variableFields
        (stripSpaces : string → string) (order : RangeOrder)
        (data : UniqueContactModel) (name : string) (s : Summary.t) :
  ValidOrder order →
  RunSummary stripSpaces order data name = Some s →
  groupRows stripSpaces data name ≠ [] ∧
  dom (Summary.variables s) = list_to_set (Variables data) ∧
  (∀ f, f ∈ Variables data → is_Some (Summary.variables s !! f)) ∧
  (∀ f, f ∈ Variables data →
        Forall (λ v, v !! f = None) (groupRows stripSpaces data name) →
        Summary.variables s !! f = Some "").
Proof.
  intros Hvalid Hs.
  apply (RunSummary_Some _ _ Hvalid) in Hs as (_ & Hrows & ->). simpl.
  split; [done|].
  pose proof (dom_mergedVariables data _ Hrows) as Hdom.
  split; [done|]. split.
  - intros f Hf. apply elem_of_dom. rewrite Hdom. by apply elem_of_list_to_set.
  - intros f Hf Habsent.
    destruct (nonempty_last _ Hrows) as (rows & last & Heq).
    rewrite Heq in Habsent |- *.
    rewrite lookup_mergedVariables_last, decide_True by done.
    f_equal. apply index_missing.
    apply Forall_app in Habsent as [_ Hlast].
    by apply Forall_cons in Hlast as [? _].
Qed.

Lemma variables_dom_variableFields_witness :
  dom (Summary.variables mergeAnn) = list_to_set (Variables mergeData).
Proof.
  apply (variables_dom_variableFields
           Trim.TrimSpace canonicalOrder mergeData "ann" mergeAnn).
  - intros A m. reflexivity.
  - vm_compute. reflexivity.
Defined.

(** ** Records read through [index] only *)

Lemma sameReads_insert_missing (v : gmap string string) f :
  v !! f = None → sameReads v (<[f := ""]> v).
Proof.
  intros Hf g. unfold index. destruct (decide (f = g)) as [<-|Hne].
  - by rewrite lookup_insert_eq, Hf.
  - by rewrite lookup_insert_ne.
Qed.

Lemma elementLabels_ext fields v v' :
  sameReads v v' → elementLabels fields v = elementLabels fields v'.
Proof.
  intros Hsame. unfold elementLabels. rewrite !foldl_snoc_fmap. f_equal.
  apply list_fmap_ext. intros ? g _. apply Hsame.
Qed.

Lemma setVariables_ext fields v v' c log :
  sameReads v v' → setVariables fields v c log = setVariables fields v' c log.
Proof.
  intros Hsame. unfold setVariables. revert c log.
  induction fields as [|g fields IH]; intros c log; simpl; [done|].
  rewrite (Hsame g). apply IH.
Qed.

Lemma groupElement_ext stripSpaces data labelFields variableFields w i v v' :
  sameReads v v' →
  groupElement stripSpaces data labelFields variableFields w i v
  = groupElement stripSpaces data labelFields variableFields w i v'.
Proof.
  intros Hsame. unfold groupElement.
  rewrite (Hsame (GroupByField data)), (Hsame (CodeField data)),
          (Hsame (DestinationField data)).
  destruct (decide _); [done|].
  destruct (Lock _ _) as [h|]; [|done]. simpl.
  by rewrite (elementLabels_ext _ v v'), (setVariables_ext _ v v').
Qed.

Lemma rangeElements_ext stripSpaces data labelFields variableFields els els' :
  Forall2 sameReads els els' →
  ∀ w i,
    rangeElements (groupElement stripSpaces data labelFields variableFields) w i els
    = rangeElements (groupElement stripSpaces data labelFields variableFields) w i els'.
Proof.
  induction 1 as [|v v' els els' Hv _ IH]; intros w i; simpl; [done|].
  rewrite (groupElement_ext _ _ _ _ _ _ v v' Hv).
  destruct (groupElement _ _ _ _ _ _ v'); [|done]. simpl. apply IH.
Qed.

Lemma Run_ext stripSpaces order data els' resp :
  Forall2 sameReads (CSV data) els' →
  Run stripSpaces order data resp
  = Run stripSpaces order (withCSV data els') resp.
Proof.
  intros Hsame. unfold Run, Group. simpl.
  change (groupElement stripSpaces (withCSV data els'))
    with (groupElement stripSpaces data).
  by rewrite (rangeElements_ext _ _ _ _ _ _ Hsame).
Qed.

(** C6.  A field name that a record does not have reads as the empty
    string, and [Run] cannot tell the record from the same record with the
    field set to the empty string: the outcome, the result and the log are
    the same, and the call returns without an error. *)
Theorem missing_field_reads_empty
        (stripSpaces : string → string) (order : RangeOrder)
        (data : UniqueContactModel)
        (pre post : list (gmap string string)) (v : gmap string string)
        (f : string) (resp : RunResponse) :
  ValidOrder order →
  CSV data = pre ++ v :: post →
  v !! f = None →
  index v f = "" ∧
  destinationPair data v = destinationPair data (<[f := ""]> v) ∧
  labelTuple data v = labelTuple data (<[f := ""]> v) ∧
  groupKey stripSpaces data v = groupKey stripSpaces data (<[f := ""]> v) ∧
  (∀ vars, writeVariables data vars v = writeVariables data vars (<[f := ""]> v)) ∧
  Run stripSpaces order data resp
  = Run stripSpaces order (withCSV data (pre ++ <[f := ""]> v :: post)) resp ∧
  ∃ contacts log,
    Run stripSpaces order data resp
    = (Returned (mkResponse (Error resp)
                   (Some (MapValue returnSchema contacts))), log).
Proof.
  intros Hvalid Hcsv Hf.
  pose proof (sameReads_insert_missing v f Hf) as Hsame.
  split; [by apply index_missing|].
  split; [unfold destinationPair; by rewrite !Hsame|].
  split; [apply list_fmap_ext; intros ? g _; apply Hsame|].
  split; [unfold groupKey; by rewrite Hsame|].
  split.
  { intros vars. unfold writeVariables. generalize (Variables data).
    intros fields. revert vars.
    induction fields as [|g fields IH]; intros vars; simpl; [done|].
    rewrite (Hsame g). apply IH. }
  split.
  - apply Run_ext. rewrite Hcsv.
    apply Forall2_app; [by apply Forall_Forall2_diag, Forall_forall|].
    constructor; [done|]. by apply Forall_Forall2_diag, Forall_forall.
  - destruct (Run_returns stripSpaces order Hvalid data resp)
      as (w & _ & _ & Hrun).
    by eexists _, _.
Qed.

Lemma missing_field_reads_empty_witness :
  Run Trim.TrimSpace canonicalOrder mergeData emptyResponse
  = Run Trim.TrimSpace canonicalOrder
        (withCSV mergeData
           ([annFirst] ++ <["size" := ""]> bobOnly :: [blankRow; annLast]))
        emptyResponse.
Proof.
  apply (missing_field_reads_empty
           Trim.TrimSpace canonicalOrder mergeData
           [annFirst] [blankRow; annLast] bobOnly "size" emptyResponse).
  - intros A m. reflexivity.
  - reflexivity.
  - vm_compute. reflexivity.
Defined.

(** ** The second loop on its own, and the whole call *)

Example known_seen :
  seen <$> (match Group Trim.TrimSpace knownData (Labels knownData)
                        (Variables knownData) with
            | Returned w => Some w
            | Faulted _ => None
            end)
  = Some knownSeen.
Proof. vm_compute. reflexivity. Qed.

(** C7.  The second loop is a total function of the accumulators [seen]:
    for every accumulator state it returns, never panics, and returns the
    same contacts whatever order the Go run time picks for its two map
    iterations, so two runs on the same state agree.  It reads [seen] and
    writes only its own [contacts]; a contact of the result holds the
    deduplicated labels, the variables and the deduplicated destinations of
    the accumulator of the same name. *)
Theorem Finalize_pure_total
        (seen : gmap string contact.t) (order1 order2 : RangeOrder) :
  ValidOrder order1 →
  ValidOrder order2 →
  ∃ contacts,
    Finalize order1 returnSchema seen = Returned contacts ∧
    Finalize order2 returnSchema seen = Returned contacts ∧
    dom contacts = dom seen ∧
    (∀ n c, seen !! n = Some c →
            finalizeContact order1 returnSchema c
            = finalizeContact order2 returnSchema c) ∧
    (∀ n c, seen !! n = Some c →
            contacts !! n ≫= summaryOf = Some (contactSummary c)).
Proof.
  intros Hvalid1 Hvalid2. exists (contactValue <$> seen).
  split; [by apply Finalize_contactValue|].
  split; [by apply Finalize_contactValue|].
  split; [apply dom_fmap_L|]. split.
  - intros n c _. by rewrite !finalizeContact_contactValue.
  - intros n c Hn. rewrite lookup_fmap, Hn. simpl.
    apply summaryOf_contactValue.
Qed.

Lemma Finalize_pure_total_witness :
  ∃ contacts,
    Finalize canonicalOrder returnSchema knownSeen = Returned contacts ∧
    Finalize reverseOrder returnSchema knownSeen = Returned contacts ∧
    dom contacts = dom knownSeen ∧
    (∀ n c, knownSeen !! n = Some c →
            finalizeContact canonicalOrder returnSchema c
            = finalizeContact reverseOrder returnSchema c) ∧
    (∀ n c, knownSeen !! n = Some c →
            contacts !! n ≫= summaryOf = Some (contactSummary c)).
Proof.
  apply (Finalize_pure_total knownSeen canonicalOrder reverseOrder).
  - intros A m. reflexivity.
  - intros A m. apply reverse_Permutation.
Defined.

(** C8.  For every decoded input [Run] returns: the first loop never
    blocks on a mutex nor dereferences nil, the second loop and the final
    [MapValueMust] never panic, setting the result gives no error, and the
    response keeps the error it came with (none, for a fresh response).
    What the call reports besides its result is the list of warnings. *)
Theorem Run_never_fails
        (stripSpaces : string → string) (order : RangeOrder)
        (data : UniqueContactModel) (resp : RunResponse) :
  ValidOrder order →
  ∃ w contacts,
    Group stripSpaces data (Labels data) (Variables data) = Returned w ∧
    (∀ n c, seen w !! n = Some c →
            finalizeContact order returnSchema c = Returned (contactValue c)) ∧
    Finalize order returnSchema (seen w) = Returned contacts ∧
    types.MapValueMust returnSchema contacts
    = Returned (MapValue returnSchema contacts) ∧
    ResultSet resp (MapValue returnSchema contacts)
    = (mkResponse (Error resp) (Some (MapValue returnSchema contacts)), None) ∧
    Run stripSpaces order data resp
    = (Returned (mkResponse (Error resp)
                   (Some (MapValue returnSchema contacts))),
       tflog w) ∧
    (Error resp = None →
     Contacts (Run stripSpaces order data resp) = Some contacts).
Proof.
  intros Hvalid.
  destruct (Run_returns stripSpaces order Hvalid data resp)
    as (w & Hg & _ & Hrun).
  exists w, (contactValue <$> seen w).
  split; [done|].
  split; [intros n c _; by apply finalizeContact_contactValue|].
  split; [by apply Finalize_contactValue|].
  split; [apply MapValueMust_contacts|].
  split; [unfold ResultSet; cbn [TypeOf]; by rewrite Equal_Return|].
  split; [done|].
  intros Herr. rewrite Hrun. unfold Contacts. simpl. by rewrite Herr.
Qed.

Lemma Run_never_fails_witness :
  ∃ contacts log,
    Run Trim.TrimSpace canonicalOrder mergeData emptyResponse
    = (Returned (mkResponse None (Some (MapValue returnSchema contacts))), log).
Proof.
  destruct (Run_never_fails Trim.TrimSpace canonicalOrder mergeData
              emptyResponse (λ A m, reflexivity _))
    as (w & contacts & _ & _ & _ & _ & _ & Hrun & _).
  exists contacts, (tflog w). exact Hrun.
Defined.

(** C10.  The entry of a group depends on the records of that group only:
    it is a function of the selectors and of the subsequence of the
    records whose processed group-by value is the group's key.  Two inputs
    with the same such subsequence give the same entry, present or absent,
    whatever else they contain. *)
Theorem group_noninterference
        (stripSpaces : string → string) (order : RangeOrder)
        (data : UniqueContactModel)
        (els1 els2 : list (gmap string string)) (name : string) :
  ValidOrder order →
  filter (λ v, groupKey stripSpaces data v = name) els1
  = filter (λ v, groupKey stripSpaces data v = name) els2 →
  ∃ m1 m2,
    RunContacts stripSpaces order (withCSV data els1) = Some m1 ∧
    RunContacts stripSpaces order (withCSV data els2) = Some m2 ∧
    m1 !! name = m2 !! name ∧
    m1 !! name =
      (let rows := filter (λ v, groupKey stripSpaces data v = name) els1 in
       if decide (name = "" ∨ rows = []) then None
       else Some (rowsValue data rows)) ∧
    RunSummary stripSpaces order (withCSV data els1) name
    = RunSummary stripSpaces order (withCSV data els2) name.
Proof.
  intros Hvalid Heq.
  destruct (RunContacts_lookup stripSpaces order Hvalid (withCSV data els1))
    as (m1 & Hm1 & Hlook1).
  destruct (RunContacts_lookup stripSpaces order Hvalid (withCSV data els2))
    as (m2 & Hm2 & Hlook2).
  specialize (Hlook1 name). specialize (Hlook2 name).
  change (groupRows stripSpaces (withCSV data els1) name)
    with (filter (λ v, groupKey stripSpaces data v = name) els1) in Hlook1.
  change (groupRows stripSpaces (withCSV data els2) name)
    with (filter (λ v, groupKey stripSpaces data v = name) els2) in Hlook2.
  change (rowsValue (withCSV data els1)) with (rowsValue data) in Hlook1.
  change (rowsValue (withCSV data els2)) with (rowsValue data) in Hlook2.
  rewrite <- Heq in Hlook2.
  exists m1, m2. split; [done|]. split; [done|].
  split; [by rewrite Hlook1, Hlook2|]. split; [done|].
  unfold RunSummary. rewrite Hm1, Hm2. simpl. by rewrite Hlook1, Hlook2.
Qed.

Lemma group_noninterference_witness :
  ∃ m1 m2,
    RunContacts Trim.TrimSpace canonicalOrder
      (withCSV mergeData [annFirst; bobOnly; blankRow; annLast]) = Some m1 ∧
    RunContacts Trim.TrimSpace canonicalOrder
      (withCSV mergeData [row "bob" "1" "2"; annFirst; row "eve" "3" "4"; annLast])
    = Some m2 ∧
    m1 !! "ann" = m2 !! "ann".
Proof.
  destruct (group_noninterference Trim.TrimSpace canonicalOrder mergeData
              [annFirst; bobOnly; blankRow; annLast]
              [row "bob" "1" "2"; annFirst; row "eve" "3" "4"; annLast]
              "ann" (λ A m, reflexivity _))
    as (m1 & m2 & H1 & H2 & H12 & _).
  - vm_compute. reflexivity.
  - exists m1, m2. split; [exact H1|]. split; [exact H2|exact H12].
Defined.

(** * Beyond the claims *)

(** ** The first loop, step by step *)

Lemma setVariables_spec fields v c log :
  setVariables fields v c log
  = (contact.mk (contact.mu c) (contact.destinations c) (contact.labels c)
       (foldl (λ vars field, <[field := index v field]> vars)
              (contact.variables c) fields),
     log ++ overwriteWarnings (dom (contact.variables c)) fields).
Proof.
  unfold setVariables. revert c log.
  induction fields as [|f fields IH]; intros c log; simpl.
  - destruct c. by rewrite app_nil_r.
  - rewrite IH. simpl. f_equal. rewrite dom_insert_L.
    destruct (contact.variables c !! f) as [x|] eqn:Hf.
    + rewrite decide_True by (apply elem_of_dom; by eexists).
      by rewrite <- app_assoc.
    + rewrite decide_False by (by apply not_elem_of_dom). done.
Qed.

(** On a state whose contacts are behind unlocked mutexes, one iteration
    of the first loop returns the state [stepWorld] computes. *)
Lemma groupElement_stepWorld stripSpaces data w i v :
  MutexesFree w →
  groupElement stripSpaces data (Labels data) (Variables data) w i v
  = Returned (stepWorld stripSpaces data w i v).
Proof.
  intros (Hfree & _ & _ & _). unfold groupElement, stepWorld.
  fold (groupKey stripSpaces data v).
  destruct (decide (groupKey stripSpaces data v = "")) as [|Hname]; [done|].
  set (name := groupKey stripSpaces data v) in *.
  destruct (seen w !! name) as [c|] eqn:Hc.
  - destruct (Hfree _ _ Hc) as (l & Hmu & Hl).
    assert (∀ h lg, seenAt (mkWorld (seen w) h lg) name = c) as Hat
        by (intros; unfold seenAt; simpl; by rewrite Hc).
    assert (seenAt w name = c) as Hat1 by (unfold seenAt; by rewrite Hc).
    rewrite Hat1, Hmu. unfold Lock. rewrite Hl. simpl.
    rewrite !Hat, elementLabels_labelTuple, setVariables_spec. simpl.
    unfold seenAt. simpl. rewrite lookup_insert_eq. simpl.
    assert (l < length (mutexes w)) as Hlt by (by eapply lookup_lt_Some).
    rewrite Hmu. unfold Unlock. rewrite list_lookup_insert_eq by done. simpl.
    rewrite list_insert_insert_eq, list_insert_id by done.
    unfold addRecord, writeVariables, destinationPair. by rewrite Hmu.
  - simpl.
    assert (∀ h lg, seenAt (mkWorld (<[name := contact.mk (Some (length (mutexes w))) [] [] ∅]> (seen w)) h lg) name
                    = contact.mk (Some (length (mutexes w))) [] [] ∅) as Hat
        by (intros; unfold seenAt; simpl; by rewrite lookup_insert_eq).
    rewrite Hat. simpl. unfold Lock.
    rewrite lookup_app_r, Nat.sub_diag by done. simpl.
    rewrite !Hat, elementLabels_labelTuple, setVariables_spec. simpl.
    unfold seenAt. simpl. rewrite lookup_insert_eq. simpl.
    unfold Unlock.
    rewrite list_lookup_insert_eq by (rewrite length_app; simpl; lia). simpl.
    rewrite list_insert_insert_eq, insert_insert_eq.
    rewrite list_insert_id by (by rewrite lookup_app_r, Nat.sub_diag).
    rewrite dom_empty_L. done.
Qed.

Lemma overwriteWarnings_nil keys fields :
  overwriteWarnings keys fields = [] ↔
  NoDup fields ∧ ∀ f, f ∈ fields → f ∉ keys.
Proof.
  revert keys. induction fields as [|f fields IH]; intros keys; simpl.
  - split; [|done]. intros _. split; [constructor|].
    intros f Hf. by apply elem_of_nil in Hf.
  - rewrite NoDup_cons. split.
    + intros [Hhead Htail]%app_eq_nil. apply IH in Htail as [Hnd Hnot].
      destruct (decide (f ∈ keys)) as [|Hf]; [done|].
      split; [split; [|done]|].
      * intros Hin. apply (Hnot f Hin). set_solver.
      * intros g [->|Hg]%elem_of_cons; [done|].
        intros Hk. apply (Hnot g Hg). set_solver.
    + intros [[Hf Hnd] Hnot].
      rewrite decide_False by (apply Hnot; by left). simpl.
      apply IH. split; [done|]. intros g Hg Hk.
      apply elem_of_union in Hk as [Hk|Hk].
      * apply elem_of_singleton in Hk as ->. done.
      * apply (Hnot g); [by right|done].
Qed.

Lemma overwriteWarnings_all keys fields :
  (∀ f, f ∈ fields → f ∈ keys) →
  overwriteWarnings keys fields = VariableAlreadyExists <$> fields.
Proof.
  revert keys. induction fields as [|f fields IH]; intros keys Hall; simpl;
    [done|].
  rewrite decide_True by (apply Hall; by left). simpl. f_equal.
  apply IH. intros g Hg. apply elem_of_union. right. apply Hall. by right.
Qed.

Lemma stepWorld_MutexesFree stripSpaces data w i v :
  MutexesFree w → MutexesFree (stepWorld stripSpaces data w i v).
Proof.
  intros (Hfree & Hinj & Hall & Hlen). unfold stepWorld.
  destruct (decide (groupKey stripSpaces data v = "")) as [|Hname]; [done|].
  set (name := groupKey stripSpaces data v) in *.
  destruct (seen w !! name) as [c|] eqn:Hc; simpl.
  - assert (∀ n c', <[name := addRecord data c v]> (seen w) !! n = Some c' →
                    ∃ c0, seen w !! n = Some c0 ∧
                          contact.mu c' = contact.mu c0) as Hold.
    { intros n c' Hn. destruct (decide (name = n)) as [<-|Hne].
      - rewrite lookup_insert_eq in Hn. injection Hn as <-. by exists c.
      - rewrite lookup_insert_ne in Hn by done. by exists c'. }
    split; [|split; [|split]]; simpl.
    + intros n c' (c0 & Hc0 & ->)%Hold. by eapply Hfree.
    + intros n1 n2 c1 c2 (c1' & H1 & ->)%Hold (c2' & H2 & ->)%Hold.
      by eapply Hinj.
    + done.
    + rewrite map_size_insert_Some; [done|]. by eexists.
  - split; [|split; [|split]]; simpl.
    + intros n c' Hn. destruct (decide (name = n)) as [<-|Hne].
      * rewrite lookup_insert_eq in Hn. injection Hn as <-. simpl.
        exists (length (mutexes w)). split; [done|].
        by rewrite lookup_app_r, Nat.sub_diag.
      * rewrite lookup_insert_ne in Hn by done.
        destruct (Hfree _ _ Hn) as (l & Hmu & Hl). exists l. split; [done|].
        rewrite lookup_app_l; [done|]. by eapply lookup_lt_Some.
    + assert (∀ n c', n ≠ name → seen w !! n = Some c' →
                      contact.mu c' ≠ Some (length (mutexes w))) as Hfresh.
      { intros n c' _ Hn Hmu. destruct (Hfree _ _ Hn) as (l & Hmu' & Hl).
        apply lookup_lt_Some in Hl. rewrite Hmu in Hmu'.
        injection Hmu' as <-. lia. }
      intros n1 n2 c1 c2 H1 H2 Hmu.
      destruct (decide (name = n1)) as [<-|Hne1];
        destruct (decide (name = n2)) as [<-|Hne2]; [done|..].
      * rewrite lookup_insert_eq in H1. injection H1 as <-.
        rewrite lookup_insert_ne in H2 by done. simpl in Hmu.
        exfalso. by eapply (Hfresh n2 c2).
      * rewrite lookup_insert_eq in H2. injection H2 as <-.
        rewrite lookup_insert_ne in H1 by done. simpl in Hmu.
        exfalso. by eapply (Hfresh n1 c1).
      * rewrite lookup_insert_ne in H1, H2 by done. by eapply Hinj.
    + apply Forall_app. split; [done|]. by constructor.
    + rewrite length_app, map_size_insert_None by done. simpl. lia.
Qed.

Lemma MutexesFree_init : MutexesFree (mkWorld ∅ [] []).
Proof.
  split; [|split; [|split]]; simpl.
  - intros n c Hn. by rewrite lookup_empty in Hn.
  - intros n1 n2 c1 c2 Hn. by rewrite lookup_empty in Hn.
  - constructor.
  - by rewrite map_size_empty.
Qed.

Lemma GroupInv_MutexesFree_step stripSpaces data pre w i v :
  GroupInv stripSpaces data pre w → MutexesFree w →
  GroupInv stripSpaces data (pre ++ [v]) (stepWorld stripSpaces data w i v).
Proof.
  intros Hinv Hfree.
  destruct (groupElement_inv stripSpaces data pre w i v Hinv) as (w' & Hw' & Hinv').
  rewrite (groupElement_stepWorld _ _ _ _ _ Hfree) in Hw'. by injection Hw' as <-.
Qed.

Lemma stepWorld_tflog stripSpaces data pre w i v :
  GroupInv stripSpaces data pre w →
  tflog (stepWorld stripSpaces data w i v)
  = tflog w ++ recordWarnings stripSpaces data pre i v.
Proof.
  intros Hinv. unfold stepWorld, recordWarnings.
  destruct (decide (groupKey stripSpaces data v = "")) as [->|Hname]; [done|].
  specialize (Hinv (groupKey stripSpaces data v)).
  destruct (seen w !! groupKey stripSpaces data v) as [c|]; simpl.
  - destruct Hinv as (_ & Hrows & (_ & _ & Hvars) & _).
    rewrite decide_False by done. f_equal.
    apply overwriteWarnings_all. intros f Hf.
    rewrite Hvars, dom_mergedVariables by done. by apply elem_of_list_to_set.
  - destruct Hinv as [|Hrows]; [done|]. by rewrite decide_True.
Qed.

(** The first loop is the fold of [stepWorld]; the fold keeps the two
    invariants and logs [expectedLog]. *)
Lemma rangeElements_foldWorld stripSpaces data els :
  ∀ pre w i,
    GroupInv stripSpaces data pre w → MutexesFree w →
    rangeElements (groupElement stripSpaces data (Labels data) (Variables data))
                  w i els
    = Returned (foldWorld stripSpaces data w i els) ∧
    GroupInv stripSpaces data (pre ++ els) (foldWorld stripSpaces data w i els) ∧
    MutexesFree (foldWorld stripSpaces data w i els) ∧
    tflog (foldWorld stripSpaces data w i els)
    = tflog w ++ expectedLog stripSpaces data pre i els.
Proof.
  induction els as [|v els IH]; intros pre w i Hinv Hfree; simpl.
  - by rewrite !app_nil_r.
  - rewrite (groupElement_stepWorld _ _ _ _ _ Hfree). simpl.
    pose proof (GroupInv_MutexesFree_step _ _ _ _ i v Hinv Hfree) as Hinv1.
    pose proof (stepWorld_MutexesFree stripSpaces data _ i v Hfree) as Hfree1.
    destruct (IH _ _ (S i) Hinv1 Hfree1) as (Hrun & Hinv' & Hfree' & Hlog).
    split; [done|]. split; [by rewrite <- app_assoc in Hinv'|].
    split; [done|].
    by rewrite Hlog, (stepWorld_tflog _ _ pre), <- app_assoc.
Qed.

Lemma Group_foldWorld stripSpaces data :
  let w := foldWorld stripSpaces data (mkWorld ∅ [] []) 0 (CSV data) in
  Group stripSpaces data (Labels data) (Variables data) = Returned w ∧
  GroupInv stripSpaces data (CSV data) w ∧
  MutexesFree w ∧
  tflog w = expectedLog stripSpaces data [] 0 (CSV data).
Proof.
  apply (rangeElements_foldWorld stripSpaces data (CSV data) [] _ 0
           (GroupInv_init _ _) MutexesFree_init).
Qed.

Lemma Run_log stripSpaces order data resp :
  (Run stripSpaces order data resp).2
  = expectedLog stripSpaces data [] 0 (CSV data).
Proof.
  destruct (Group_foldWorld stripSpaces data) as (Hg & _ & _ & Hlog).
  unfold Run. rewrite Hg.
  by destruct (_ ≫= _).
Qed.

(** ** More on the stable unique-filter and [UniqueSliceElements] *)

Section KeepUnseenMore.
Context {A K : Type} `{EqDecision K} (key : A → K).

Lemma keepUnseen_ext (s s' : list K) (l : list A) :
  (∀ k, k ∈ s ↔ k ∈ s') → keepUnseen key s l = keepUnseen key s' l.
Proof.
  revert s s'. induction l as [|x l IH]; intros s s' Hss; simpl; [done|].
  destruct (decide (key x ∈ s)) as [Hx|Hx].
  - rewrite decide_True by (by apply Hss). by apply IH.
  - rewrite decide_False by (by rewrite <- Hss). f_equal. apply IH.
    intros k. rewrite !elem_of_cons, Hss. done.
Qed.

Lemma keepUnseen_app (s : list K) (l1 l2 : list A) :
  keepUnseen key s (l1 ++ l2)
  = keepUnseen key s l1 ++ keepUnseen key (s ++ (key <$> l1)) l2.
Proof.
  revert s. induction l1 as [|x l1 IH]; intros s.
  - simpl. by rewrite app_nil_r.
  - rewrite fmap_cons. cbn [app keepUnseen].
    destruct (decide (key x ∈ s)) as [Hx|Hx].
    + rewrite IH. f_equal. apply keepUnseen_ext. intros k.
      rewrite !elem_of_app, elem_of_cons. naive_solver.
    + rewrite IH. cbn [app]. f_equal. f_equal. apply keepUnseen_ext. intros k.
      rewrite elem_of_cons, !elem_of_app, elem_of_cons. tauto.
Qed.

Lemma keepUnseen_filter (s1 s2 : list K) (l : list A) :
  keepUnseen key (s1 ++ s2) l
  = filter (λ y, key y ∉ s1) (keepUnseen key s2 l).
Proof.
  revert s2. induction l as [|x l IH]; intros s2; simpl; [done|].
  destruct (decide (key x ∈ s2)) as [Hx2|Hx2].
  - rewrite decide_True by (apply elem_of_app; by right). apply IH.
  - rewrite filter_cons. destruct (decide (key x ∉ s1)) as [Hx1|Hx1].
    + rewrite decide_False by (rewrite elem_of_app; tauto).
      f_equal. rewrite <- IH. apply keepUnseen_ext. intros k.
      rewrite !elem_of_cons, !elem_of_app, elem_of_cons. tauto.
    + apply dec_stable in Hx1.
      rewrite decide_True by (apply elem_of_app; by left).
      rewrite <- IH. apply keepUnseen_ext. intros k.
      rewrite !elem_of_app, elem_of_cons. naive_solver.
Qed.

Lemma keepUnseen_all_seen (s : list K) (l : list A) :
  (∀ x, x ∈ l → key x ∈ s) → keepUnseen key s l = [].
Proof.
  induction l as [|x l IH]; intros Hall; simpl; [done|].
  rewrite decide_True by (apply Hall; by left).
  apply IH. intros y Hy. apply Hall. by right.
Qed.

Lemma firstByKey_app (l1 l2 : list A) :
  firstByKey key (l1 ++ l2)
  = firstByKey key l1
      ++ filter (λ y, key y ∉ key <$> l1) (firstByKey key l2).
Proof.
  unfold firstByKey. rewrite keepUnseen_app. f_equal. simpl.
  rewrite <- keepUnseen_filter. by rewrite app_nil_r.
Qed.

Lemma firstByKey_twice (l : list A) :
  firstByKey key (l ++ l) = firstByKey key l.
Proof.
  unfold firstByKey. rewrite keepUnseen_app.
  rewrite (keepUnseen_all_seen ([] ++ (key <$> l)) l).
  - apply app_nil_r.
  - intros x Hx. simpl. by apply list_elem_of_fmap_2.
Qed.

Lemma firstByKey_head (x : A) (l : list A) :
  head (firstByKey key (x :: l)) = Some x.
Proof.
  unfold firstByKey. cbn [keepUnseen].
  destruct (decide (key x ∈ [])) as [Hx|_]; [by apply elem_of_nil in Hx|done].
Qed.

Lemma firstByKey_id_iff (l : list A) :
  firstByKey key l = l ↔ NoDup (key <$> l).
Proof.
  split.
  - intros Heq. rewrite <- Heq. apply keepUnseen_NoDup.
  - intros Hnd. apply keepUnseen_NoDup_id; [done|].
    intros x _. apply not_elem_of_nil.
Qed.

End KeepUnseenMore.


(** X2.  [UniqueSliceElements] leaves a slice unchanged exactly when the
    slice has no duplicates; in particular a second application changes
    nothing. *)
Theorem UniqueSliceElements_fixpoint `{Countable T} (l : list T) :
  (UniqueSliceElements l = l ↔ NoDup l) ∧
  UniqueSliceElements (UniqueSliceElements l) = UniqueSliceElements l.
Proof.
  rewrite !UniqueSliceElements_stableUnique. split.
  - pose proof (firstByKey_id_iff (@id T) l) as Hiff.
    by rewrite list_fmap_id in Hiff.
  - apply stableUnique_id, stableUnique_NoDup.
Qed.

(** X3.  [UniqueSliceElements] on a concatenation: the unique elements of
    the first part, then the unique elements of the second part that do
    not occur in the first. *)
Theorem UniqueSliceElements_app `{Countable T} (l1 l2 : list T) :
  UniqueSliceElements (l1 ++ l2)
  = UniqueSliceElements l1
      ++ filter (λ x, x ∉ l1) (UniqueSliceElements l2).
Proof.
  rewrite !UniqueSliceElements_stableUnique. unfold stableUnique.
  rewrite firstByKey_app. by rewrite list_fmap_id.
Qed.

(** X4.  The labels collected at lines 197-205 are already free of
    duplicates, so the call of [UniqueSliceElements] at line 231 returns
    its argument unchanged. *)
Theorem UniqueSliceElements_on_labels_is_noop (c : contact.t) :
  NoDup (finalLabels c) ∧
  UniqueSliceElements (finalLabels c) = finalLabels c.
Proof.
  assert (NoDup (finalLabels c)) as Hnd.
  { rewrite finalLabels_stableUnique.
    apply (NoDup_fmap_2 _), stableUnique_NoDup. }
  split; [done|].
  rewrite UniqueSliceElements_stableUnique. by apply stableUnique_id.
Qed.

(** ** The state after the first loop *)

(** X5.  The first loop returns and deduplicates nothing: the accumulator
    of a key exists exactly for the non-empty keys that have a record, and
    it holds one destination pair per record of the group and one label
    per record and label field, in input order. *)
Theorem first_loop_accumulators
        (stripSpaces : string → string) (data : UniqueContactModel) :
  ∃ w, Group stripSpaces data (Labels data) (Variables data) = Returned w ∧
       (∀ name, is_Some (seen w !! name) ↔
                name ≠ "" ∧ groupRows stripSpaces data name ≠ []) ∧
       (∀ name c, seen w !! name = Some c →
          let rows := groupRows stripSpaces data name in
          contact.destinations c = destinationPair data <$> rows ∧
          contact.labels c = rows ≫= labelTuple data ∧
          contact.variables c = mergedVariables data rows ∧
          length (contact.destinations c) = length rows ∧
          length (contact.labels c) = length rows * length (Labels data)).
Proof.
  destruct (Group_inv stripSpaces data) as (w & Hg & Hinv).
  exists w. split; [done|]. split.
  - intros name. specialize (Hinv name).
    change (rowsIn stripSpaces data (CSV data) name)
      with (groupRows stripSpaces data name) in Hinv.
    destruct (seen w !! name) as [c|].
    + destruct Hinv as (? & ? & _). split; [done|]. by eexists.
    + split; [by intros [? ?]|]. tauto.
  - intros name c Hc rows. specialize (Hinv name). rewrite Hc in Hinv.
    destruct Hinv as (_ & _ & (Hd & Hl & Hv) & _).
    change (rowsIn stripSpaces data (CSV data) name) with rows in Hd, Hl, Hv.
    split; [done|]. split; [done|]. split; [done|]. split.
    + by rewrite Hd, length_fmap.
    + rewrite Hl. clear. induction rows as [|r rows IH]; [done|].
      cbn [mbind list_bind]. rewrite length_app, IH.
      unfold labelTuple. rewrite length_fmap. simpl. lia.
Qed.

(** X6.  The first loop returns with every mutex released: every cell of
    the mutex store is unlocked, there is one cell per contact, every
    contact points to a cell, and no two contacts share one. *)
Theorem first_loop_mutexes_released
        (stripSpaces : string → string) (data : UniqueContactModel) :
  ∃ w, Group stripSpaces data (Labels data) (Variables data) = Returned w ∧
       Forall (λ b, b = false) (mutexes w) ∧
       length (mutexes w) = size (seen w) ∧
       (∀ n c, seen w !! n = Some c →
               ∃ l, contact.mu c = Some l ∧ l < length (mutexes w)) ∧
       (∀ n1 n2 c1 c2, seen w !! n1 = Some c1 → seen w !! n2 = Some c2 →
                       contact.mu c1 = contact.mu c2 → n1 = n2).
Proof.
  destruct (Group_foldWorld stripSpaces data)
    as (Hg & _ & (Hfree & Hinj & Hall & Hlen) & _).
  eexists. split; [exact Hg|]. split; [done|]. split; [done|]. split; [|done].
  intros n c Hc. destruct (Hfree _ _ Hc) as (l & Hmu & Hl).
  exists l. split; [done|]. by eapply lookup_lt_Some.
Qed.

(** ** The log *)

Lemma expectedLog_imap stripSpaces data els :
  ∀ pre i,
    expectedLog stripSpaces data pre i els
    = mjoin (imap (λ j v, recordWarnings stripSpaces data
                            (pre ++ take j els) (i + j) v) els).
Proof.
  induction els as [|v els IH]; intros pre i; [done|].
  cbn [expectedLog imap mjoin list_join]. f_equal.
  - by rewrite app_nil_r, Nat.add_0_r.
  - rewrite IH. f_equal. apply imap_ext. intros j u _. simpl.
    by rewrite <- app_assoc, Nat.add_succ_r.
Qed.

(** X7.  The log of a call is the concatenation, record by record, of:
    one empty-name warning with the record's position for a record whose
    processed key is empty; for a later record of a group, one overwrite
    warning per entry of variableFields, whether or not the value
    changes; for the first record of a group, overwrite warnings only
    for names repeated inside variableFields (none when variableFields
    has no repetition). *)
Theorem Run_log_record_by_record
        (stripSpaces : string → string) (order : RangeOrder)
        (data : UniqueContactModel) (resp : RunResponse) :
  (Run stripSpaces order data resp).2
  = mjoin (imap (λ i v, recordWarnings stripSpaces data
                          (take i (CSV data)) i v) (CSV data)) ∧
  (∀ pre i v, groupKey stripSpaces data v = "" →
     recordWarnings stripSpaces data pre i v = [ElementHasEmptyName i ""]) ∧
  (∀ pre i v, groupKey stripSpaces data v ≠ "" →
     rowsIn stripSpaces data pre (groupKey stripSpaces data v) ≠ [] →
     recordWarnings stripSpaces data pre i v
     = VariableAlreadyExists <$> Variables data) ∧
  (∀ pre i v, groupKey stripSpaces data v ≠ "" →
     rowsIn stripSpaces data pre (groupKey stripSpaces data v) = [] →
     (recordWarnings stripSpaces data pre i v = [] ↔ NoDup (Variables data))).
Proof.
  split; [|split; [|split]].
  - rewrite Run_log, expectedLog_imap. done.
  - intros pre i v Hk. unfold recordWarnings. by rewrite decide_True.
  - intros pre i v Hk Hrows. unfold recordWarnings.
    by rewrite decide_False, decide_False.
  - intros pre i v Hk Hrows. unfold recordWarnings.
    rewrite decide_False, decide_True by done.
    rewrite overwriteWarnings_nil. split; [tauto|]. intros Hnd.
    split; [done|]. intros f _. apply not_elem_of_empty.
Qed.

Lemma filter_emptyName_overwrite keys fields :
  filter (λ e, isEmptyNameWarning e = true) (overwriteWarnings keys fields) = [].
Proof.
  revert keys. induction fields as [|f fields IH]; intros keys; simpl; [done|].
  rewrite filter_app, IH, app_nil_r. by destruct (decide _).
Qed.

Lemma filter_emptyName_fmap fields :
  filter (λ e, isEmptyNameWarning e = true) (VariableAlreadyExists <$> fields)
  = [].
Proof. induction fields as [|f fields IH]; [done|]. rewrite fmap_cons. by rewrite filter_cons_False. Qed.

Lemma filter_emptyName_expectedLog stripSpaces data els :
  ∀ pre i,
    filter (λ e, isEmptyNameWarning e = true)
           (expectedLog stripSpaces data pre i els)
    = (λ j, ElementHasEmptyName j "") <$> blankPositions stripSpaces data i els.
Proof.
  induction els as [|v els IH]; intros pre i; [done|].
  cbn [expectedLog blankPositions]. rewrite filter_app, IH, fmap_app.
  f_equal. unfold recordWarnings.
  destruct (decide (groupKey stripSpaces data v = "")); [done|].
  destruct (decide _).
  - apply filter_emptyName_overwrite.
  - apply filter_emptyName_fmap.
Qed.

Lemma blankPositions_spec stripSpaces data els :
  ∀ i j, j ∈ blankPositions stripSpaces data i els ↔
         ∃ v, els !! (j - i) = Some v ∧ i ≤ j ∧
              groupKey stripSpaces data v = "".
Proof.
  induction els as [|v els IH]; intros i j; cbn [blankPositions].
  - split; [by intros ?%elem_of_nil|]. by intros (v & Hv & _).
  - rewrite elem_of_app, IH. split.
    + intros [Hj|(u & Hu & Hle & Hk)].
      * destruct (decide _) as [Hk|]; [|by apply elem_of_nil in Hj].
        apply list_elem_of_singleton in Hj as ->. exists v.
        by rewrite Nat.sub_diag.
      * exists u. split; [|split; [lia|done]].
        replace (j - i) with (S (j - S i)) by lia. done.
    + intros (u & Hu & Hle & Hk).
      destruct (decide (i = j)) as [<-|Hne].
      * left. rewrite Nat.sub_diag in Hu. injection Hu as <-.
        rewrite decide_True by done. by left.
      * right. exists u. split; [|split; [lia|done]].
        replace (j - i) with (S (j - S i)) in Hu by lia. done.
Qed.

Lemma length_blankPositions stripSpaces data els i :
  length (blankPositions stripSpaces data i els)
  = length (filter (λ v, groupKey stripSpaces data v = "") els).
Proof.
  revert i. induction els as [|v els IH]; intros i; [done|].
  cbn [blankPositions]. rewrite length_app, IH, filter_cons.
  by destruct (decide _).
Qed.

(** X8.  The empty-name warnings of a call, in log order, are one per
    record whose processed group key is empty, in input order; each
    carries the position of its record and the empty name. *)
Theorem Run_empty_name_warnings
        (stripSpaces : string → string) (order : RangeOrder)
        (data : UniqueContactModel) (resp : RunResponse) :
  let log := (Run stripSpaces order data resp).2 in
  filter (λ e, isEmptyNameWarning e = true) log
  = (λ j, ElementHasEmptyName j "") <$> blankPositions stripSpaces data 0 (CSV data) ∧
  (∀ j, ElementHasEmptyName j "" ∈ log ↔
        ∃ v, CSV data !! j = Some v ∧ groupKey stripSpaces data v = "") ∧
  (∀ j name, ElementHasEmptyName j name ∈ log → name = "") ∧
  length (filter (λ e, isEmptyNameWarning e = true) log)
  = length (filter (λ v, groupKey stripSpaces data v = "") (CSV data)).
Proof.
  intros log. subst log. rewrite Run_log.
  pose proof (filter_emptyName_expectedLog stripSpaces data (CSV data) [] 0)
    as Hfilter.
  assert (∀ j name,
            ElementHasEmptyName j name
              ∈ expectedLog stripSpaces data [] 0 (CSV data) ↔
            name = "" ∧ j ∈ blankPositions stripSpaces data 0 (CSV data))
    as Hin.
  { intros j name.
    transitivity (ElementHasEmptyName j name
                    ∈ filter (λ e, isEmptyNameWarning e = true)
                        (expectedLog stripSpaces data [] 0 (CSV data))).
    - rewrite list_elem_of_filter. simpl. tauto.
    - rewrite Hfilter, list_elem_of_fmap. split.
      + intros (j' & [= -> ->] & Hj). done.
      + intros [-> Hj]. by exists j. }
  split; [done|]. split; [|split].
  - intros j. rewrite Hin, blankPositions_spec, Nat.sub_0_r.
    split.
    + intros (_ & v & Hv & _ & Hk). by exists v.
    + intros (v & Hv & Hk). split; [done|]. exists v.
      split; [done|]. split; [lia|done].
  - intros j name Hj. by apply Hin in Hj as [-> _].
  - by rewrite Hfilter, length_fmap, length_blankPositions.
Qed.

Lemma recordWarnings_nil stripSpaces data pre i v :
  recordWarnings stripSpaces data pre i v = [] ↔
  groupKey stripSpaces data v ≠ "" ∧
  (rowsIn stripSpaces data pre (groupKey stripSpaces data v) = [] →
   NoDup (Variables data)) ∧
  (rowsIn stripSpaces data pre (groupKey stripSpaces data v) ≠ [] →
   Variables data = []).
Proof.
  unfold recordWarnings.
  destruct (decide (groupKey stripSpaces data v = "")) as [Hk|Hk].
  { split; [done|]. by intros [? _]. }
  destruct (decide (rowsIn stripSpaces data pre (groupKey stripSpaces data v) = []))
    as [Hrows|Hrows].
  - rewrite overwriteWarnings_nil. split.
    + intros [Hnd _]. done.
    + intros (_ & Hnd & _). split; [by apply Hnd|].
      intros f _. apply not_elem_of_empty.
  - split.
    + intros Hnil%fmap_nil_inv. done.
    + intros (_ & _ & Hnil). by rewrite (Hnil Hrows).
Qed.

Lemma rowsIn_snoc_nil stripSpaces data pre v name :
  rowsIn stripSpaces data (pre ++ [v]) name = [] ↔
  rowsIn stripSpaces data pre name = [] ∧ groupKey stripSpaces data v ≠ name.
Proof.
  rewrite rowsIn_snoc. destruct (decide _) as [Hk|Hk].
  - split; [|tauto]. intros Hnil. by apply app_nil in Hnil as [_ ?].
  - rewrite app_nil_r. tauto.
Qed.

Lemma expectedLog_nil stripSpaces data els :
  ∀ pre i,
    expectedLog stripSpaces data pre i els = [] ↔
    Forall (λ v, groupKey stripSpaces data v ≠ "") els ∧
    (els ≠ [] → NoDup (Variables data)) ∧
    (Variables data ≠ [] →
     NoDup (groupKey stripSpaces data <$> els) ∧
     ∀ u, u ∈ els →
          rowsIn stripSpaces data pre (groupKey stripSpaces data u) = []).
Proof.
  induction els as [|v els IH]; intros pre i.
  - simpl. split; [|done]. intros _. split; [constructor|]. split; [done|].
    intros _. split; [constructor|]. intros u Hu. by apply elem_of_nil in Hu.
  - cbn [expectedLog]. rewrite app_nil, IH, recordWarnings_nil.
    rewrite Forall_cons, fmap_cons, NoDup_cons.
    assert (∀ fields : list string, fields = [] ∨ fields ≠ []) as Hdec
        by (intros [|??]; [by left|by right]).
    split.
    + intros ((Hk & Hnew & Hold) & Hnb & Hnd & Hrest).
      split; [done|]. split.
      { intros _.
        destruct (decide (rowsIn stripSpaces data pre
                            (groupKey stripSpaces data v) = [])) as [Hr|Hr].
        - by apply Hnew.
        - rewrite (Hold Hr). constructor. }
      intros Hfields. destruct (Hrest Hfields) as [Hndk Hrows].
      assert (rowsIn stripSpaces data pre (groupKey stripSpaces data v) = [])
        as Hv.
      { destruct (decide (rowsIn stripSpaces data pre
                            (groupKey stripSpaces data v) = [])) as [Hr|Hr];
          [done|]. by specialize (Hold Hr). }
      split; [split; [|done]|].
      * intros (u & Hku & Hu)%list_elem_of_fmap.
        apply Hrows in Hu. apply rowsIn_snoc_nil in Hu as [_ Hne]. done.
      * intros u [->|Hu]%elem_of_cons; [done|].
        apply Hrows in Hu. by apply rowsIn_snoc_nil in Hu as [? _].
    + intros ((Hk & Hnb) & Hnd & Hkeys).
      split; [split; [done|split]|split; [done|split]].
      * intros _. by apply Hnd.
      * intros Hr. destruct (Hdec (Variables data)) as [|Hfields]; [done|].
        destruct (Hkeys Hfields) as [_ Hrows]. exfalso. apply Hr, Hrows. by left.
      * intros _. by apply Hnd.
      * intros Hfields. destruct (Hkeys Hfields) as [[Hv Hndk] Hrows].
        split; [done|]. intros u Hu. apply rowsIn_snoc_nil. split.
        -- apply Hrows. by right.
        -- intros Heq. apply Hv. rewrite Heq. by apply list_elem_of_fmap_2.
Qed.

(** X9.  A call logs nothing exactly when no record has an empty processed
    group key, variableFields has no repeated name (unless there is no
    record at all), and no two records share a group key (unless
    variableFields is empty). *)
Theorem Run_quiet
        (stripSpaces : string → string) (order : RangeOrder)
        (data : UniqueContactModel) (resp : RunResponse) :
  (Run stripSpaces order data resp).2 = [] ↔
  Forall (λ v, groupKey stripSpaces data v ≠ "") (CSV data) ∧
  (CSV data ≠ [] → NoDup (Variables data)) ∧
  (Variables data ≠ [] → NoDup (groupKey stripSpaces data <$> CSV data)).
Proof.
  rewrite Run_log, expectedLog_nil. split.
  - intros (Hnb & Hnd & Hkeys). split; [done|]. split; [done|].
    intros Hfields. by apply Hkeys.
  - intros (Hnb & Hnd & Hkeys). split; [done|]. split; [done|].
    intros Hfields. split; [by apply Hkeys|]. done.
Qed.

(** ** Edge cases and composition of the result *)

Lemma length_bind_labelTuple data (rows : list (gmap string string)) :
  length (rows ≫= labelTuple data) = length rows * length (Labels data).
Proof.
  induction rows as [|r rows IH]; [done|].
  cbn [mbind list_bind]. rewrite length_app, IH.
  unfold labelTuple. rewrite length_fmap. simpl. lia.
Qed.

Lemma firstByKey_nil_iff {A} `{EqDecision K} (key : A → K) (l : list A) :
  firstByKey key l = [] ↔ l = [].
Proof.
  split; [|by intros ->]. destruct l as [|x l]; [done|].
  intros Hnil. pose proof (firstByKey_head key x l) as Hh.
  by rewrite Hnil in Hh.
Qed.

(** X10.  Edge cases of a group's labels and variables: the labels are
    empty exactly when labelFields is empty, and otherwise start with the
    value the first record of the group reads at the first label field;
    the variables are empty exactly when variableFields is empty; there
    are at most as many labels as records times label fields. *)
Theorem labels_variables_edge_cases
        (stripSpaces : string → string) (order : RangeOrder)
        (data : UniqueContactModel) (name : string) (s : Summary.t) :
  ValidOrder order →
  RunSummary stripSpaces order data name = Some s →
  (Summary.labels s = [] ↔ Labels data = []) ∧
  (Summary.variables s = ∅ ↔ Variables data = []) ∧
  (∀ f fs r rs, Labels data = f :: fs →
                groupRows stripSpaces data name = r :: rs →
                head (Summary.labels s) = Some (index r f)) ∧
  length (Summary.labels s)
  ≤ length (groupRows stripSpaces data name) * length (Labels data).
Proof.
  intros Hvalid Hs.
  apply (RunSummary_Some _ _ Hvalid) in Hs as (_ & Hrows & ->). simpl.
  set (rows := groupRows stripSpaces data name) in *.
  split; [|split; [|split]].
  - unfold stableUnique. rewrite firstByKey_nil_iff.
    rewrite <- !length_zero_iff_nil, length_bind_labelTuple.
    destruct rows; [done|]. simpl. lia.
  - rewrite <- dom_empty_iff_L, dom_mergedVariables by done.
    destruct (Variables data) as [|f fs].
    + done.
    + split; [|done]. intros Hempty. exfalso.
      apply (not_elem_of_empty (C:=gset string) f). rewrite <- Hempty.
      apply elem_of_list_to_set. by left.
  - intros f fs r rs Hl Hr. rewrite Hr. cbn [mbind list_bind].
    unfold labelTuple at 1. rewrite Hl, fmap_cons. cbn [app].
    apply firstByKey_head.
  - rewrite <- length_bind_labelTuple.
    apply sublist_length, keepUnseen_sublist.
Qed.

Lemma labels_variables_edge_cases_witness :
  Summary.labels mergeAnn = [] ↔ Labels mergeData = [].
Proof.
  apply (labels_variables_edge_cases
           Trim.TrimSpace canonicalOrder mergeData "ann" mergeAnn
           (λ A m, reflexivity _) eq_refl).
Defined.

Lemma keepUnseen_length_eq {A} `{EqDecision K} (key : A → K) s (l : list A) :
  length (keepUnseen key s l) = length l → keepUnseen key s l = l.
Proof.
  revert s. induction l as [|x l IH]; intros s; simpl; [done|].
  destruct (decide (key x ∈ s)).
  - intros Hlen. pose proof (sublist_length _ _ (keepUnseen_sublist key s l)).
    lia.
  - simpl. intros [= Hlen]. f_equal. by apply IH.
Qed.

(** X11.  Every group has a destination: the list starts with the pair
    of the group's first record, has at most one pair per record, and has
    one pair per record exactly when the records of the group read
    pairwise different values at the destination field. *)
Theorem destinations_head_and_length
        (stripSpaces : string → string) (order : RangeOrder)
        (data : UniqueContactModel) (name : string) (s : Summary.t) :
  ValidOrder order →
  RunSummary stripSpaces order data name = Some s →
  let rows := groupRows stripSpaces data name in
  (∃ r rs, rows = r :: rs ∧
           head (Summary.destinations s) = Some (destinationPair data r)) ∧
  1 ≤ length (Summary.destinations s) ≤ length rows ∧
  (length (Summary.destinations s) = length rows ↔
   NoDup ((λ r, index r (DestinationField data)) <$> rows)).
Proof.
  intros Hvalid Hs rows.
  apply (RunSummary_Some _ _ Hvalid) in Hs as (_ & Hrows & ->). simpl.
  fold rows in Hrows |- *.
  assert (length (firstByKey destination.destination
                    (destinationPair data <$> rows)) ≤ length rows) as Hle.
  { rewrite <- (length_fmap (destinationPair data) rows).
    apply sublist_length, keepUnseen_sublist. }
  destruct rows as [|r rs] eqn:Hr; [done|].
  pose proof (firstByKey_head destination.destination
                (destinationPair data r) (destinationPair data <$> rs)) as Hh.
  rewrite <- fmap_cons in Hh.
  split; [by exists r, rs|]. split.
  - split; [|done].
    destruct (firstByKey _ _); [done|]. simpl. lia.
  - rewrite <- (length_fmap (destinationPair data) (r :: rs)).
    rewrite (list_fmap_ext (λ r, index r (DestinationField data))
               (destination.destination ∘ destinationPair data) (r :: rs))
      by done.
    rewrite list_fmap_compose, <- firstByKey_id_iff. split.
    + apply keepUnseen_length_eq.
    + by intros ->.
Qed.

Lemma destinations_head_and_length_witness :
  1 ≤ length (Summary.destinations knownFoo1)
    ≤ length (groupRows Trim.TrimSpace knownData "foo1").
Proof.
  apply (destinations_head_and_length
           Trim.TrimSpace canonicalOrder knownData "foo1" knownFoo1
           (λ A m, reflexivity _) eq_refl).
Defined.

Lemma mergedVariables_nonempty data rows last :
  mergedVariables data (rows ++ [last]) = mergedVariables data [last].
Proof.
  apply map_eq. intros f.
  rewrite lookup_mergedVariables_last.
  by rewrite (lookup_mergedVariables_last data [] last).
Qed.

(** The whole map of contacts, from the groups' rows. *)
Lemma RunContacts_eq stripSpaces order data els1 els2 :
  ValidOrder order →
  (∀ name, name ≠ "" →
     filter (λ v, groupKey stripSpaces data v = name) els1 ≠ [] ∨
     filter (λ v, groupKey stripSpaces data v = name) els2 ≠ [] →
     filter (λ v, groupKey stripSpaces data v = name) els1 ≠ [] ∧
     filter (λ v, groupKey stripSpaces data v = name) els2 ≠ [] ∧
     rowsValue data (filter (λ v, groupKey stripSpaces data v = name) els1)
     = rowsValue data (filter (λ v, groupKey stripSpaces data v = name) els2)) →
  RunContacts stripSpaces order (withCSV data els1)
  = RunContacts stripSpaces order (withCSV data els2).
Proof.
  intros Hvalid Hrows.
  destruct (RunContacts_lookup stripSpaces order Hvalid (withCSV data els1))
    as (m1 & -> & Hlook1).
  destruct (RunContacts_lookup stripSpaces order Hvalid (withCSV data els2))
    as (m2 & -> & Hlook2).
  f_equal. apply map_eq. intros name.
  rewrite Hlook1, Hlook2.
  change (groupRows stripSpaces (withCSV data els1) name)
    with (filter (λ v, groupKey stripSpaces data v = name) els1).
  change (groupRows stripSpaces (withCSV data els2) name)
    with (filter (λ v, groupKey stripSpaces data v = name) els2).
  change (rowsValue (withCSV data els1)) with (rowsValue data).
  change (rowsValue (withCSV data els2)) with (rowsValue data).
  destruct (decide (name = "")) as [->|Hname].
  { by rewrite !decide_True by (by left). }
  specialize (Hrows name Hname).
  destruct (decide (filter (λ v, groupKey stripSpaces data v = name) els1 = []))
    as [H1|H1];
    destruct (decide (filter (λ v, groupKey stripSpaces data v = name) els2 = []))
    as [H2|H2].
  - by rewrite !decide_True by (by right).
  - destruct Hrows as (? & _); [by right|done].
  - destruct Hrows as (_ & ? & _); [by left|done].
  - destruct Hrows as (_ & _ & Heq); [by left|].
    rewrite !decide_False by tauto. by rewrite Heq.
Qed.

(** X12.  Feeding every record twice changes no contact: the call on the
    input followed by a copy of itself returns the same map as the call
    on the input. *)
Theorem Run_on_doubled_input
        (stripSpaces : string → string) (order : RangeOrder)
        (data : UniqueContactModel) (els : list (gmap string string)) :
  ValidOrder order →
  RunContacts stripSpaces order (withCSV data (els ++ els))
  = RunContacts stripSpaces order (withCSV data els).
Proof.
  intros Hvalid. apply RunContacts_eq; [done|].
  intros name Hname. rewrite filter_app.
  set (rows := filter (λ v, groupKey stripSpaces data v = name) els).
  intros Hne. assert (rows ≠ []) as Hrows.
  { destruct Hne as [Hne|Hne]; [|done].
    intros Hnil. by rewrite Hnil in Hne. }
  split; [by destruct rows|]. split; [done|].
  assert (mergedVariables data (rows ++ rows) = mergedVariables data rows)
    as Hvars.
  { destruct (nonempty_last _ Hrows) as (rows' & last & Heq).
    rewrite Heq, app_assoc, mergedVariables_nonempty.
    by rewrite mergedVariables_nonempty. }
  unfold rowsValue, contactValue, stableUnique. simpl.
  by rewrite fmap_app, bind_app, !firstByKey_twice, Hvars.
Qed.

Lemma Run_on_doubled_input_witness :
  RunContacts Trim.TrimSpace canonicalOrder
    (withCSV mergeData (CSV mergeData ++ CSV mergeData))
  = RunContacts Trim.TrimSpace canonicalOrder (withCSV mergeData (CSV mergeData)).
Proof.
  apply (Run_on_doubled_input Trim.TrimSpace canonicalOrder mergeData
           (CSV mergeData)).
  intros A m. reflexivity.
Defined.

(** X13.  The contacts depend on the order of the records only inside
    each group: two inputs whose records of every non-empty key are the
    same sequence give the same map of contacts.  So records of
    different groups can be interleaved at will. *)
Theorem Run_group_order_only
        (stripSpaces : string → string) (order : RangeOrder)
        (data : UniqueContactModel) (els1 els2 : list (gmap string string)) :
  ValidOrder order →
  (∀ name, name ≠ "" →
           filter (λ v, groupKey stripSpaces data v = name) els1
           = filter (λ v, groupKey stripSpaces data v = name) els2) →
  RunContacts stripSpaces order (withCSV data els1)
  = RunContacts stripSpaces order (withCSV data els2).
Proof.
  intros Hvalid Hsame. apply RunContacts_eq; [done|].
  intros name Hname. rewrite (Hsame name Hname). tauto.
Qed.

Lemma Run_group_order_only_witness :
  RunContacts Trim.TrimSpace canonicalOrder (withCSV mergeData [annFirst; bobOnly])
  = RunContacts Trim.TrimSpace canonicalOrder (withCSV mergeData [bobOnly; annFirst]).
Proof.
  apply (Run_group_order_only Trim.TrimSpace canonicalOrder mergeData
           [annFirst; bobOnly] [bobOnly; annFirst]).
  - intros A m. reflexivity.
  - intros name _. rewrite !filter_cons, !filter_nil.
    change (groupKey Trim.TrimSpace mergeData annFirst) with "ann".
    change (groupKey Trim.TrimSpace mergeData bobOnly) with "bob".
    destruct (decide ("ann" = name)) as [<-|]; [reflexivity|].
    destruct (decide ("bob" = name)); reflexivity.
Defined.

(** ** What [Run] reads, and in which order *)

Lemma setVariables_ext_on fields v v' c log :
  (∀ f, f ∈ fields → index v f = index v' f) →
  setVariables fields v c log = setVariables fields v' c log.
Proof.
  unfold setVariables. revert c log.
  induction fields as [|g fields IH]; intros c log Hsame; simpl; [done|].
  rewrite (Hsame g) by (by left). apply IH.
  intros f Hf. apply Hsame. by right.
Qed.

Lemma groupElement_ext_selectors stripSpaces data w i v v' :
  sameOnSelectors data v v' →
  groupElement stripSpaces data (Labels data) (Variables data) w i v
  = groupElement stripSpaces data (Labels data) (Variables data) w i v'.
Proof.
  intros Hsame. unfold groupElement.
  assert (∀ f, f ∈ Labels data → index v f = index v' f) as Hlabels.
  { intros f Hf. apply Hsame. unfold selectors.
    rewrite !elem_of_cons, elem_of_app. tauto. }
  assert (∀ f, f ∈ Variables data → index v f = index v' f) as Hvars.
  { intros f Hf. apply Hsame. unfold selectors.
    rewrite !elem_of_cons, elem_of_app. tauto. }
  rewrite (Hsame (GroupByField data)) by (by left).
  rewrite (Hsame (CodeField data)) by (right; by left).
  rewrite (Hsame (DestinationField data)) by (right; right; by left).
  destruct (decide _); [done|].
  destruct (Lock _ _) as [h|]; [|done]. simpl.
  assert (elementLabels (Labels data) v = elementLabels (Labels data) v')
    as ->.
  { unfold elementLabels. rewrite !foldl_snoc_fmap. f_equal.
    apply list_fmap_ext. intros j f Hj. apply Hlabels.
    by eapply list_elem_of_lookup_2. }
  by rewrite (setVariables_ext_on _ v v').
Qed.

(** X14.  [Run] reads a record at its selectors only (the group-by, code
    and destination fields, the label fields and the variable fields):
    replacing records by records that read the same at every selector
    changes neither the outcome, nor the result, nor the log.  Fields
    that no selector names can be added, removed or changed freely. *)
Theorem Run_reads_selectors_only
        (stripSpaces : string → string) (order : RangeOrder)
        (data : UniqueContactModel) (els' : list (gmap string string))
        (resp : RunResponse) :
  Forall2 (sameOnSelectors data) (CSV data) els' →
  Run stripSpaces order data resp
  = Run stripSpaces order (withCSV data els') resp.
Proof.
  intros Hsame. unfold Run, Group. simpl.
  change (groupElement stripSpaces (withCSV data els'))
    with (groupElement stripSpaces data).
  assert (∀ w i,
            rangeElements
              (groupElement stripSpaces data (Labels data) (Variables data))
              w i (CSV data)
            = rangeElements
                (groupElement stripSpaces data (Labels data) (Variables data))
                w i els') as Hrange.
  { induction Hsame as [|v v' els els'' Hv _ IH]; intros w i; simpl; [done|].
    rewrite (groupElement_ext_selectors _ _ _ _ v v' Hv).
    destruct (groupElement _ _ _ _ _ _ v'); [|done]. simpl. apply IH. }
  by rewrite Hrange.
Qed.

Lemma Run_reads_selectors_only_witness :
  Run Trim.TrimSpace canonicalOrder mergeData emptyResponse
  = Run Trim.TrimSpace canonicalOrder
        (withCSV mergeData
           [<["note" := "vip"]> annFirst; bobOnly;
            blankRow; <["note" := ""]> annLast])
        emptyResponse.
Proof.
  apply (Run_reads_selectors_only Trim.TrimSpace canonicalOrder mergeData).
  assert (∀ f, f ∈ selectors mergeData → f ≠ "note") as Hsel.
  { intros f Hf. unfold selectors, mergeData in Hf. simpl in Hf.
    repeat (apply elem_of_cons in Hf as [->|Hf]); [done..|].
    by apply elem_of_nil in Hf. }
  repeat constructor; intros f Hnote%Hsel; unfold index;
    by rewrite ?lookup_insert_ne.
Defined.

(** X15.  The response and the log of a call do not depend on the order
    in which the Go run time iterates over the maps [seen] and
    [c.variables]. *)
Theorem Run_order_independent
        (stripSpaces : string → string) (order1 order2 : RangeOrder)
        (data : UniqueContactModel) (resp : RunResponse) :
  ValidOrder order1 →
  ValidOrder order2 →
  Run stripSpaces order1 data resp = Run stripSpaces order2 data resp.
Proof.
  intros Hvalid1 Hvalid2.
  destruct (Run_returns stripSpaces order1 Hvalid1 data resp)
    as (w1 & Hg1 & _ & ->).
  destruct (Run_returns stripSpaces order2 Hvalid2 data resp)
    as (w2 & Hg2 & _ & ->).
  rewrite Hg1 in Hg2. by injection Hg2 as <-.
Qed.

Lemma Run_order_independent_witness :
  Run Trim.TrimSpace canonicalOrder mergeData emptyResponse
  = Run Trim.TrimSpace reverseOrder mergeData emptyResponse.
Proof.
  apply (Run_order_independent Trim.TrimSpace canonicalOrder reverseOrder
           mergeData emptyResponse).
  - intros A m. reflexivity.
  - intros A m. apply reverse_Permutation.
Defined.

Lemma RunContacts_dom stripSpaces order data :
  ValidOrder order →
  ∃ m, RunContacts stripSpaces order data = Some m ∧
       dom m = list_to_set
                 (filter (λ k, k ≠ "") (groupKey stripSpaces data <$> CSV data)).
Proof.
  intros Hvalid.
  destruct (RunContacts_lookup stripSpaces order Hvalid data) as (m & Hm & Hlook).
  exists m. split; [done|]. apply set_eq. intros name.
  rewrite elem_of_dom, Hlook, elem_of_list_to_set, list_elem_of_filter,
          list_elem_of_fmap.
  unfold groupRows. destruct (decide _) as [Hd|Hd].
  - split; [by intros [? ?]|]. intros (Hname & v & Hk & Hv).
    destruct Hd as [?|Hnil]; [done|].
    assert (v ∈ filter (λ v, groupKey stripSpaces data v = name) (CSV data))
      as Hin by (by apply list_elem_of_filter).
    rewrite Hnil in Hin. by apply elem_of_nil in Hin.
  - split; [|by eexists]. intros _.
    split; [tauto|].
    destruct (filter _ _) as [|v l] eqn:Hf; [tauto|].
    assert (v ∈ filter (λ v, groupKey stripSpaces data v = name) (CSV data))
      as Hin by (rewrite Hf; by left).
    apply list_elem_of_filter in Hin as [? ?]. by exists v.
Qed.

(** X16.  The number of contacts is the number of distinct non-empty
    processed group keys of the input; it is at most the number of
    records with a non-empty processed key, hence at most the number of
    records. *)
Theorem Run_number_of_contacts
        (stripSpaces : string → string) (order : RangeOrder)
        (data : UniqueContactModel) :
  ValidOrder order →
  ∃ m, RunContacts stripSpaces order data = Some m ∧
       size m = length (stableUnique
                          (filter (λ k, k ≠ "")
                                  (groupKey stripSpaces data <$> CSV data))) ∧
       size m ≤ length (filter (λ v, groupKey stripSpaces data v ≠ "")
                               (CSV data)) ∧
       size m ≤ length (CSV data).
Proof.
  intros Hvalid.
  destruct (RunContacts_dom stripSpaces order data Hvalid) as (m & Hm & Hdom).
  exists m. split; [done|].
  set (keys := filter (λ k, k ≠ "") (groupKey stripSpaces data <$> CSV data))
    in *.
  assert (size m = length (stableUnique keys)) as Hsize.
  { rewrite <- size_dom, Hdom.
    rewrite <- (size_list_to_set (C:=gset string) (stableUnique keys))
      by apply stableUnique_NoDup.
    f_equal. apply set_eq. intros k. rewrite !elem_of_list_to_set.
    pose proof (keepUnseen_keys id [] keys k) as Hk.
    rewrite !list_fmap_id in Hk. unfold stableUnique, firstByKey.
    rewrite Hk. split; [|tauto]. intros Hx. split; [done|].
    apply not_elem_of_nil. }
  assert (length keys
          = length (filter (λ v, groupKey stripSpaces data v ≠ "") (CSV data)))
    as Hkeys.
  { subst keys. clear. induction (CSV data) as [|v els IH]; [done|].
    rewrite fmap_cons, !filter_cons. destruct (decide _); simpl; by rewrite IH. }
  assert (length (stableUnique keys) ≤ length keys) as Hle
      by apply sublist_length, keepUnseen_sublist.
  split; [done|]. split; [lia|].
  pose proof (length_filter (λ v, groupKey stripSpaces data v ≠ "") (CSV data)).
  lia.
Qed.

Lemma Run_number_of_contacts_witness :
  ∃ m, RunContacts Trim.TrimSpace canonicalOrder mergeData = Some m ∧
       size m ≤ length (CSV mergeData).
Proof.
  destruct (Run_number_of_contacts Trim.TrimSpace canonicalOrder mergeData
              (λ A m, reflexivity _)) as (m & Hm & _ & _ & Hle).
  exists m. split; [exact Hm|exact Hle].
Defined.

(** X17.  More records only extend a group: after appending records to
    the input, every group is still there, and its labels and its
    destinations are the old ones followed by new ones. *)
Theorem Run_append_extends_groups
        (stripSpaces : string → string) (order : RangeOrder)
        (data : UniqueContactModel) (els more : list (gmap string string))
        (name : string) (s : Summary.t) :
  ValidOrder order →
  RunSummary stripSpaces order (withCSV data els) name = Some s →
  ∃ s', RunSummary stripSpaces order (withCSV data (els ++ more)) name
        = Some s' ∧
        Summary.labels s `prefix_of` Summary.labels s' ∧
        Summary.destinations s `prefix_of` Summary.destinations s'.
Proof.
  intros Hvalid Hs.
  apply (RunSummary_Some _ _ Hvalid) in Hs as (Hname & Hrows & ->).
  rewrite (RunSummary_spec _ _ Hvalid).
  change (groupRows stripSpaces (withCSV data els) name)
    with (filter (λ v, groupKey stripSpaces data v = name) els) in *.
  change (groupRows stripSpaces (withCSV data (els ++ more)) name)
    with (filter (λ v, groupKey stripSpaces data v = name) (els ++ more)).
  rewrite filter_app.
  set (rows := filter (λ v, groupKey stripSpaces data v = name) els) in *.
  set (rows' := filter (λ v, groupKey stripSpaces data v = name) more).
  rewrite decide_False.
  - eexists. split; [done|]. simpl.
    change (labelTuple (withCSV data ?e)) with (labelTuple data).
    change (destinationPair (withCSV data ?e)) with (destinationPair data).
    unfold stableUnique. rewrite bind_app, fmap_app, !firstByKey_app.
    split; by eexists.
  - intros [?|Hnil]; [done|]. by apply app_nil in Hnil as [? _].
Qed.

Lemma Run_append_extends_groups_witness :
  ∃ s', RunSummary Trim.TrimSpace canonicalOrder
          (withCSV mergeData ([annFirst; bobOnly] ++ [blankRow; annLast])) "ann"
        = Some s' ∧
        ["red"] `prefix_of` Summary.labels s'.
Proof.
  assert (RunSummary Trim.TrimSpace canonicalOrder
            (withCSV mergeData [annFirst; bobOnly]) "ann"
          = Some (Summary.mk ["red"] {[ "color" := "red"; "size" := "S" ]}
                             [destination.mk "" "100"])) as Hs
      by (vm_compute; reflexivity).
  destruct (Run_append_extends_groups Trim.TrimSpace canonicalOrder mergeData
              [annFirst; bobOnly] [blankRow; annLast] "ann" _
              canonicalOrder_valid Hs)
    as (s' & Hs' & Hl & _).
  exists s'. split; [exact Hs'|exact Hl].
Defined.

(** ** The shape of the result *)

#[local] Instance destinationValue_inj : Inj (=) (=) destinationValue.
Proof.
  assert (∀ d, destinationOf (destinationValue d) = Some d) as Hof
      by (by intros [c d]).
  intros d1 d2 Heq.
  assert (Some d1 = Some d2) as Hsome by (by rewrite <- !Hof, Heq).
  by injection Hsome.
Qed.

(** X18.  The value [Run] sets has the return type that [Definition]
    declares, and so all the way down: every contact is an object of
    [returnSchema] with a set of destination objects, a list of strings
    and a map of strings.  The set has no two equal elements and the list
    no two equal strings. *)
Theorem Run_result_has_declared_type
        (stripSpaces : string → string) (order : RangeOrder)
        (data : UniqueContactModel) :
  ValidOrder order →
  ∃ m log,
    Run stripSpaces order data emptyResponse
    = (Returned (mkResponse None (Some (MapValue returnSchema m))), log) ∧
    TypeOf (MapValue returnSchema m) = ReturnType Definition_ ∧
    ∀ name v, m !! name = Some v →
      TypeOf v = returnSchema ∧
      ∃ ds ls vs,
        v = ObjectValue (AttrTypes returnSchema)
              {[ "destinations" :=
                   SetValue destinationSchema (destinationValue <$> ds);
                 "labels" :=
                   ListValue StringType (String <$> (types.StringValue <$> ls));
                 "variables" :=
                   MapValue StringType
                     ((λ s, String (types.StringValue s)) <$> vs) ]} ∧
        Forall (λ d, TypeOf d = destinationSchema) (destinationValue <$> ds) ∧
        NoDup (destinationValue <$> ds) ∧
        NoDup ls.
Proof.
  intros Hvalid.
  destruct (Run_returns stripSpaces order Hvalid data emptyResponse)
    as (w & _ & _ & Hrun).
  exists (contactValue <$> seen w), (tflog w).
  split; [done|]. split; [done|].
  intros name v Hv. rewrite lookup_fmap in Hv.
  destruct (seen w !! name) as [c|]; [|done]. injection Hv as <-.
  split; [done|].
  exists (firstByKey destination.destination (contact.destinations c)),
         (stableUnique (contact.labels c)), (contact.variables c).
  split; [done|]. split; [|split].
  - apply Forall_fmap, Forall_forall. by intros d _.
  - apply (NoDup_fmap_2 _).
    eapply NoDup_fmap_1, keepUnseen_NoDup.
  - apply stableUnique_NoDup.
Qed.

Lemma Run_result_has_declared_type_witness :
  ∃ m log,
    Run Trim.TrimSpace canonicalOrder knownData emptyResponse
    = (Returned (mkResponse None (Some (MapValue returnSchema m))), log) ∧
    TypeOf (MapValue returnSchema m) = ReturnType Definition_.
Proof.
  destruct (Run_result_has_declared_type Trim.TrimSpace canonicalOrder
              knownData canonicalOrder_valid) as (m & log & Hrun & Hty & _).
  exists m, log. split; [exact Hrun|exact Hty].
Defined.

(** X19.  Nothing is invented and nothing is lost: a string is a label
    of a group exactly when some record of the group reads it at some
    label field, and a destination value occurs among the group's
    destinations exactly when some record of the group reads it at the
    destination field; every destination of the group is the pair of one
    of its records. *)
Theorem labels_and_destinations_provenance
        (stripSpaces : string → string) (order : RangeOrder)
        (data : UniqueContactModel) (name : string) (s : Summary.t) :
  ValidOrder order →
  RunSummary stripSpaces order data name = Some s →
  let rows := groupRows stripSpaces data name in
  (∀ x, x ∈ Summary.labels s ↔
        ∃ r f, r ∈ rows ∧ f ∈ Labels data ∧ x = index r f) ∧
  (∀ x, x ∈ destination.destination <$> Summary.destinations s ↔
        ∃ r, r ∈ rows ∧ x = index r (DestinationField data)) ∧
  (∀ d, d ∈ Summary.destinations s →
        ∃ r, r ∈ rows ∧ d = destinationPair data r).
Proof.
  intros Hvalid Hs rows.
  apply (RunSummary_Some _ _ Hvalid) in Hs as (_ & _ & ->). simpl.
  fold rows. split; [|split].
  - intros x. pose proof (keepUnseen_keys id [] (rows ≫= labelTuple data) x)
      as Hk.
    rewrite !list_fmap_id in Hk. unfold stableUnique, firstByKey.
    rewrite Hk, list_elem_of_bind. split.
    + intros [(r & Hx & Hr) _]. unfold labelTuple in Hx.
      apply list_elem_of_fmap in Hx as (f & -> & Hf). by exists r, f.
    + intros (r & f & Hr & Hf & ->). split; [|apply not_elem_of_nil].
      exists r. split; [|done]. by apply list_elem_of_fmap_2.
  - intros x. unfold firstByKey. rewrite keepUnseen_keys.
    rewrite <- list_fmap_compose, list_elem_of_fmap. split.
    + intros [(r & -> & Hr) _]. by exists r.
    + intros (r & Hr & ->). split; [|apply not_elem_of_nil]. by exists r.
  - intros d Hd.
    pose proof (keepUnseen_sublist destination.destination []
                  (destinationPair data <$> rows)) as Hsub.
    eapply elem_of_submseteq in Hd; [|by apply sublist_submseteq].
    apply list_elem_of_fmap in Hd as (r & -> & Hr). by exists r.
Qed.

Lemma labels_and_destinations_provenance_witness :
  "2" ∈ Summary.labels knownFoo1 ↔
  ∃ r f, r ∈ groupRows Trim.TrimSpace knownData "foo1" ∧
         f ∈ Labels knownData ∧ "2" = index r f.
Proof.
  apply (proj1 (labels_and_destinations_provenance
                  Trim.TrimSpace canonicalOrder knownData "foo1" knownFoo1
                  canonicalOrder_valid eq_refl)).
Defined.

(** ** Misspelled selectors and repeated field names *)

Lemma expectedLog_all_blank stripSpaces data els :
  Forall (λ v, groupKey stripSpaces data v = "") els →
  ∀ pre i, expectedLog stripSpaces data pre i els
           = imap (λ j _, ElementHasEmptyName (i + j) "") els.
Proof.
  induction 1 as [|v els Hv _ IH]; intros pre i; [done|].
  cbn [expectedLog imap]. unfold recordWarnings at 1.
  rewrite decide_True by done. rewrite Nat.add_0_r. simpl. f_equal.
  rewrite IH. apply imap_ext. intros j u _. simpl. f_equal. lia.
Qed.

(** X20.  A group-by field that no record has (a misspelled selector,
    say) is no error: when [stripSpaces] maps the empty string to the
    empty string, every record is skipped, the result is the empty map
    and the log holds one empty-name warning per record. *)
Theorem Run_missing_group_field
        (stripSpaces : string → string) (order : RangeOrder)
        (data : UniqueContactModel) :
  ValidOrder order →
  stripSpaces "" = "" →
  (∀ v, v ∈ CSV data → v !! GroupByField data = None) →
  Run stripSpaces order data emptyResponse
  = (Returned (mkResponse None (Some (MapValue returnSchema ∅))),
     imap (λ i _, ElementHasEmptyName i "") (CSV data)).
Proof.
  intros Hvalid Hstrip Hmissing.
  assert (Forall (λ v, groupKey stripSpaces data v = "") (CSV data)) as Hblank.
  { apply Forall_forall. intros v Hv. unfold groupKey.
    by rewrite (index_missing _ _ (Hmissing v Hv)). }
  pose proof (Run_log stripSpaces order data emptyResponse) as Hlog.
  rewrite (expectedLog_all_blank _ _ _ Hblank) in Hlog. simpl in Hlog.
  destruct (Run_returns stripSpaces order Hvalid data emptyResponse)
    as (w & _ & Hinv & Hrun).
  rewrite Hrun in Hlog |- *. simpl in Hlog. rewrite Hlog.
  assert (seen w = ∅) as ->.
  { apply map_empty. intros name. specialize (Hinv name).
    destruct (seen w !! name) as [c|]; [|done].
    destruct Hinv as (Hname & Hrows & _). exfalso. apply Hrows.
    unfold rowsIn.
    destruct (filter _ _) as [|v l] eqn:Hf; [done|].
    assert (v ∈ filter (λ v, groupKey stripSpaces data v = name) (CSV data))
      as Hin by (rewrite Hf; by left).
    apply list_elem_of_filter in Hin as [Hk Hv].
    rewrite Forall_forall in Hblank. rewrite (Hblank v Hv) in Hk. done. }
  by rewrite fmap_empty.
Qed.

Lemma Run_missing_group_field_witness :
  Run Trim.TrimSpace canonicalOrder
      (withCSV knownData [ {[ "Name" := "foo1" ]}; {[ "code" := "1" ]} ])
      emptyResponse
  = (Returned (mkResponse None (Some (MapValue returnSchema ∅))),
     [ElementHasEmptyName 0 ""; ElementHasEmptyName 1 ""]).
Proof.
  apply (Run_missing_group_field Trim.TrimSpace canonicalOrder
           (withCSV knownData [ {[ "Name" := "foo1" ]}; {[ "code" := "1" ]} ])).
  - intros A m. reflexivity.
  - reflexivity.
  - intros v Hv. simpl in Hv.
    repeat (apply elem_of_cons in Hv as [->|Hv]); [reflexivity..|].
    by apply elem_of_nil in Hv.
Defined.

(** X21.  A group whose records all read the same value at the
    destination field (the empty string, when the field is missing from
    all of them) has exactly one destination: the pair of its first
    record. *)
Theorem destinations_collapse
        (stripSpaces : string → string) (order : RangeOrder)
        (data : UniqueContactModel) (name : string) (s : Summary.t)
        (x : string) :
  ValidOrder order →
  RunSummary stripSpaces order data name = Some s →
  (∀ r, r ∈ groupRows stripSpaces data name →
        index r (DestinationField data) = x) →
  ∃ r rs, groupRows stripSpaces data name = r :: rs ∧
          Summary.destinations s = [destination.mk (index r (CodeField data)) x].
Proof.
  intros Hvalid Hs Hsame.
  apply (RunSummary_Some _ _ Hvalid) in Hs as (_ & Hrows & ->). simpl.
  destruct (groupRows stripSpaces data name) as [|r rs]; [done|].
  exists r, rs. split; [done|].
  rewrite fmap_cons. unfold firstByKey. cbn [keepUnseen].
  destruct (decide _) as [Hin|_]; [by apply elem_of_nil in Hin|].
  rewrite keepUnseen_all_seen.
  - unfold destinationPair. f_equal. f_equal. apply Hsame. by left.
  - intros d (r' & -> & Hr')%list_elem_of_fmap. simpl.
    rewrite (Hsame r) by (by left). rewrite (Hsame r') by (by right). by left.
Qed.

Lemma destinations_collapse_witness :
  ∃ r rs, groupRows Trim.TrimSpace mergeData "ann" = r :: rs ∧
          Summary.destinations mergeAnn
          = [destination.mk (index r (CodeField mergeData)) "100"].
Proof.
  apply (destinations_collapse Trim.TrimSpace canonicalOrder mergeData
           "ann" mergeAnn "100").
  - intros A m. reflexivity.
  - vm_compute. reflexivity.
  - change (groupRows Trim.TrimSpace mergeData "ann")
      with (filter (λ v, groupKey Trim.TrimSpace mergeData v = "ann")
                   [annFirst; bobOnly; blankRow; annLast]).
    intros r [Hk Hr]%list_elem_of_filter.
    repeat (apply elem_of_cons in Hr as [->|Hr]);
      [reflexivity
      |vm_compute in Hk; discriminate
      |vm_compute in Hk; discriminate
      |reflexivity
      |by apply elem_of_nil in Hr].
Defined.

Lemma stableUnique_elem `{EqDecision A} (l : list A) x :
  x ∈ stableUnique l ↔ x ∈ l.
Proof.
  pose proof (keepUnseen_keys id [] l x) as Hk.
  rewrite !list_fmap_id in Hk. unfold stableUnique, firstByKey.
  rewrite Hk. split; [tauto|]. intros Hx. split; [done|].
  apply not_elem_of_nil.
Qed.

Lemma stableUnique_app `{EqDecision A} (l1 l2 : list A) :
  stableUnique (l1 ++ l2)
  = stableUnique l1 ++ filter (λ x, x ∉ l1) (stableUnique l2).
Proof.
  unfold stableUnique. rewrite firstByKey_app. by rewrite list_fmap_id.
Qed.

Lemma stableUnique_app_congr `{EqDecision A} (l1 l1' l2 l2' : list A) :
  stableUnique l1 = stableUnique l1' →
  stableUnique l2 = stableUnique l2' →
  stableUnique (l1 ++ l2) = stableUnique (l1' ++ l2').
Proof.
  intros H1 H2. rewrite !stableUnique_app, H1, H2. f_equal.
  apply list_filter_iff. intros x.
  by rewrite <- (stableUnique_elem l1), <- (stableUnique_elem l1'), H1.
Qed.

Lemma stableUnique_snoc `{EqDecision A} (l : list A) x :
  stableUnique (l ++ [x])
  = stableUnique l ++ (if decide (x ∈ l) then [] else [x]).
Proof.
  unfold stableUnique. rewrite firstByKey_snoc, list_fmap_id. done.
Qed.

Lemma stableUnique_fmap_stableUnique {A B} `{EqDecision A, EqDecision B}
      (g : A → B) (l : list A) :
  stableUnique (g <$> stableUnique l) = stableUnique (g <$> l).
Proof.
  induction l as [|x l IH] using rev_ind; [done|].
  assert (∀ y, y ∈ g <$> stableUnique l ↔ y ∈ g <$> l) as Helem.
  { intros y. rewrite !list_elem_of_fmap.
    split; intros (z & -> & Hz); exists z; split; try done;
      by apply stableUnique_elem. }
  rewrite (stableUnique_snoc l x), (fmap_app g l [x]).
  change (g <$> [x]) with [g x].
  rewrite (stableUnique_snoc (g <$> l) (g x)).
  destruct (decide (x ∈ l)) as [Hx|Hx].
  - rewrite decide_True by (by apply list_elem_of_fmap_2).
    by rewrite !app_nil_r.
  - rewrite (fmap_app g (stableUnique l) [x]).
    change (g <$> [x]) with [g x].
    rewrite (stableUnique_snoc (g <$> stableUnique l) (g x)), IH. f_equal.
    destruct (decide (g x ∈ g <$> l)) as [Hg|Hg].
    + by rewrite decide_True by (by apply Helem).
    + by rewrite decide_False by (by rewrite Helem).
Qed.

Lemma stableUnique_bind_fields (rows : list (gmap string string))
      (fields : list string) :
  stableUnique (rows ≫= λ r, index r <$> stableUnique fields)
  = stableUnique (rows ≫= λ r, index r <$> fields).
Proof.
  induction rows as [|r rows IH]; [done|].
  cbn [mbind list_bind].
  apply stableUnique_app_congr; [|done].
  apply stableUnique_fmap_stableUnique.
Qed.

(** X22.  Repeating a name in label_fields or in variable_fields, or
    reordering variable_fields, changes no contact: the call with the
    label fields deduplicated and with any variable fields that have the
    same names returns the same map. *)
Theorem Run_field_lists_up_to_repetition
        (stripSpaces : string → string) (order : RangeOrder)
        (data : UniqueContactModel) (variableFields : list string) :
  ValidOrder order →
  (∀ f, f ∈ variableFields ↔ f ∈ Variables data) →
  RunContacts stripSpaces order
    (withFields data (stableUnique (Labels data)) variableFields)
  = RunContacts stripSpaces order data.
Proof.
  intros Hvalid Hfields.
  set (data' := withFields data (stableUnique (Labels data)) variableFields).
  destruct (RunContacts_lookup stripSpaces order Hvalid data')
    as (m' & -> & Hlook').
  destruct (RunContacts_lookup stripSpaces order Hvalid data)
    as (m & -> & Hlook).
  f_equal. apply map_eq. intros name. rewrite Hlook, Hlook'.
  change (groupRows stripSpaces data' name)
    with (groupRows stripSpaces data name).
  destruct (decide _) as [|Hd]; [done|]. f_equal.
  assert (groupRows stripSpaces data name ≠ []) as Hrows by tauto.
  unfold rowsValue, contactValue. simpl.
  change (destinationPair data') with (destinationPair data).
  assert (stableUnique (groupRows stripSpaces data name ≫= labelTuple data')
          = stableUnique (groupRows stripSpaces data name ≫= labelTuple data))
    as -> by apply stableUnique_bind_fields.
  assert (mergedVariables data' (groupRows stripSpaces data name)
          = mergedVariables data (groupRows stripSpaces data name)) as ->.
  { destruct (nonempty_last _ Hrows) as (rows & last & ->).
    apply map_eq. intros f. rewrite !lookup_mergedVariables_last.
    change (Variables data') with variableFields.
    destruct (decide (f ∈ variableFields)) as [Hf|Hf].
    - by rewrite decide_True by (by apply Hfields).
    - by rewrite decide_False by (by rewrite <- Hfields). }
  done.
Qed.

Lemma Run_field_lists_up_to_repetition_witness :
  RunContacts Trim.TrimSpace canonicalOrder
    (withFields mergeData (stableUnique (Labels mergeData))
                ["size"; "color"; "size"])
  = RunContacts Trim.TrimSpace canonicalOrder mergeData.
Proof.
  apply (Run_field_lists_up_to_repetition Trim.TrimSpace canonicalOrder
           mergeData ["size"; "color"; "size"]).
  - intros A m. reflexivity.
  - intros f. simpl. rewrite !elem_of_cons. tauto.
Defined.
